(** * TrailComparisonMask: a shallow embedding of trail_comparison.js

    The class rasterises reference trails onto a canvas and scores a query
    trail by averaging the red channel of the mask under the query points.

    JavaScript values are embedded as a small untyped universe [jsval]
    (undefined, null, numbers, arrays), because the class inspects the shape
    of its inputs at run time.  Numbers are the binary64 values: NaN, the
    two infinities, the two zeros and the finite non-zero values, which
    are held as exact rationals; every arithmetic operation computes the
    exact result and rounds it to the nearest binary64 value, ties to
    even, as IEEE 754 and ECMAScript prescribe.  Exceptions are explicit
    completions.  The browser's canvas primitives (stroking a path,
    drawing the canvas on itself) are parameters of the development. *)

From Stdlib Require Import String.
From Stdlib Require Import ZArith QArith Qcanon Qround List Bool Lia
  Permutation Strings.Byte.
Import ListNotations.

Local Open Scope Z_scope.

(** ** JavaScript numbers *)

Module JsNum.

Inductive jsnum : Type :=
| NaN
| Inf (neg : bool)
| Zero (neg : bool)
| Val (q : Qc).

(** An integer as a rational. *)
Definition Zc (z : Z) : Qc := Q2Qc (inject_Z z).

Definition Qc_is_zero (q : Qc) : bool :=
  match Qccompare q (Zc 0) with Eq => true | _ => false end.

Definition Qc_is_neg (q : Qc) : bool :=
  match Qccompare q (Zc 0) with Lt => true | _ => false end.

(** *** Rounding to binary64 *)

(** The integer nearest to [n / d], a tie going to the even one
    ([0 <= n], [0 < d]). *)
Definition round_half_even (n d : Z) : Z :=
  let q := n / d in
  let r := n mod d in
  match 2 * r ?= d with
  | Lt => q
  | Gt => q + 1
  | Eq => if Z.even q then q else q + 1
  end.

(** The exponent [e] with [2^e <= n / d < 2^(e+1)]. *)
Definition floor_log2 (n d : positive) : Z :=
  let e0 := Z.log2 (Zpos n) - Z.log2 (Zpos d) in
  let below :=
    if 0 <=? e0 then Zpos n <? Zpos d * 2 ^ e0
    else Zpos n * 2 ^ (- e0) <? Zpos d in
  if below then e0 - 1 else e0.

(** The exponent of the last place of the binary64 values around
    [n / d]: 53 significant bits, none below [2^-1074]. *)
Definition ulp_exponent (n d : positive) : Z :=
  Z.max (floor_log2 n d - 52) (-1074).

(** [n / d] in units of the last place, rounded. *)
Definition rounded_mantissa (n d : positive) : Z :=
  let p := ulp_exponent n d in
  if 0 <=? p then round_half_even (Zpos n) (Zpos d * 2 ^ p)
  else round_half_even (Zpos n * 2 ^ (- p)) (Zpos d).

(** The rational [m * 2^p], negated when [neg]. *)
Definition dyadic (neg : bool) (m p : Z) : Qc :=
  let v := if 0 <=? p then Zc (m * 2 ^ p)
           else Q2Qc (m # Z.to_pos (2 ^ (- p))) in
  if neg then (- v)%Qc else v.

Definition round64_pos (neg : bool) (n d : positive) : jsnum :=
  let p := ulp_exponent n d in
  let m := rounded_mantissa n d in
  if m =? 0 then Zero neg
  else if 2 ^ 1024 <=? m * 2 ^ p then Inf neg
  else Val (dyadic neg m p).

(** The binary64 value nearest to the rational [q], ties to even: a zero
    on underflow, an infinity on overflow. *)
Definition round64 (q : Qc) : jsnum :=
  match Qnum q with
  | Z0 => Zero false
  | Zpos n => round64_pos false n (Qden q)
  | Zneg n => round64_pos true n (Qden q)
  end.

(** *** Literals and conversions *)

Definition of_Z (z : Z) : jsnum := round64 (Zc z).
Definition of_nat (n : nat) : jsnum := of_Z (Z.of_nat n).

(** The sign bit of a number that is not NaN. *)
Definition is_neg (a : jsnum) : bool :=
  match a with
  | NaN => false
  | Inf s | Zero s => s
  | Val q => Qc_is_neg q
  end.

(** The rational a finite number stands for. *)
Definition fin_value (a : jsnum) : Qc :=
  match a with
  | Val q => q
  | _ => Zc 0
  end.

(** *** Arithmetic *)

(** [a + b] *)
Definition add (a b : jsnum) : jsnum :=
  match a, b with
  | NaN, _ | _, NaN => NaN
  | Inf s, Inf t => if Bool.eqb s t then Inf s else NaN
  | Inf s, _ => Inf s
  | _, Inf t => Inf t
  | Zero s, Zero t => Zero (s && t)
  | Zero _, Val q => Val q
  | Val p, Zero _ => Val p
  | Val p, Val q =>
      if Qc_is_zero (p + q) then Zero false else round64 (p + q)
  end.

(** [a - b] *)
Definition sub (a b : jsnum) : jsnum :=
  match a, b with
  | NaN, _ | _, NaN => NaN
  | Inf s, Inf t => if Bool.eqb s t then NaN else Inf s
  | Inf s, _ => Inf s
  | _, Inf t => Inf (negb t)
  | Zero s, Zero t => Zero (s && negb t)
  | Zero _, Val q => Val (- q)
  | Val p, Zero _ => Val p
  | Val p, Val q =>
      if Qc_is_zero (p - q) then Zero false else round64 (p - q)
  end.

(** [a * b] *)
Definition mul (a b : jsnum) : jsnum :=
  match a, b with
  | NaN, _ | _, NaN => NaN
  | Inf _, Zero _ | Zero _, Inf _ => NaN
  | Inf s, _ => Inf (xorb s (is_neg b))
  | _, Inf t => Inf (xorb (is_neg a) t)
  | Zero s, _ => Zero (xorb s (is_neg b))
  | _, Zero t => Zero (xorb (is_neg a) t)
  | Val p, Val q =>
      if Qc_is_zero (p * q) then Zero (xorb (Qc_is_neg p) (Qc_is_neg q))
      else round64 (p * q)
  end.

(** [a / b] *)
Definition div (a b : jsnum) : jsnum :=
  match a, b with
  | NaN, _ | _, NaN => NaN
  | Inf _, Inf _ => NaN
  | Zero _, Zero _ => NaN
  | Inf s, _ => Inf (xorb s (is_neg b))
  | _, Inf t => Zero (xorb (is_neg a) t)
  | Zero s, Val q => Zero (xorb s (Qc_is_neg q))
  | Val p, Zero t => Inf (xorb (Qc_is_neg p) t)
  | Val p, Val q =>
      if Qc_is_zero q then Inf (Qc_is_neg p)
      else if Qc_is_zero (p / q)
           then Zero (xorb (Qc_is_neg p) (Qc_is_neg q))
           else round64 (p / q)
  end.

(** [a < b]: false as soon as one side is NaN; the two zeros are equal. *)
Definition lt (a b : jsnum) : bool :=
  match a, b with
  | NaN, _ | _, NaN => false
  | Inf s, Inf t => s && negb t
  | Inf s, _ => s
  | _, Inf t => negb t
  | _, _ =>
      match Qccompare (fin_value a) (fin_value b) with
      | Lt => true
      | _ => false
      end
  end.

(** [a >= b]: false as soon as one side is NaN. *)
Definition ge (a b : jsnum) : bool :=
  match a, b with
  | NaN, _ | _, NaN => false
  | Inf s, Inf t => negb s || t
  | Inf s, _ => negb s
  | _, Inf t => t
  | _, _ =>
      match Qccompare (fin_value a) (fin_value b) with
      | Lt => false
      | _ => true
      end
  end.

(** [a > b] *)
Definition gt (a b : jsnum) : bool := lt b a.

(** [a <= b] *)
Definition le (a b : jsnum) : bool := ge b a.

(** The integer [Math.round] picks for a finite value: the nearest one, a
    tie going up. *)
Definition round_Z (q : Qc) : Z := Qfloor (q + Q2Qc (1 # 2))%Qc.

(** [Math.round(a)]: exact on binary64 values; a value that rounds to
    zero keeps its sign. *)
Definition Math_round (a : jsnum) : jsnum :=
  match a with
  | NaN => NaN
  | Inf s => Inf s
  | Zero s => Zero s
  | Val q =>
      let n := round_Z q in
      if n =? 0 then Zero (Qc_is_neg q) else Val (Zc n)
  end.

(** The integer a number is, when it is one; both zeros are 0. *)
Definition int_of (a : jsnum) : option Z :=
  match a with
  | Zero _ => Some 0
  | Val q => if Zpos (Qden q) =? 1 then Some (Qnum q) else None
  | _ => None
  end.

End JsNum.
Export JsNum.

(** ** Values and completions *)

#[warnings="-register-all"]
Inductive jsval : Type :=
| JUndef
| JNull
| JNum (n : jsnum)
| JArr (elems : list jsval).

Inductive js_error : Type :=
| TypeError.

(** The result of evaluating an expression or a call: a value, or a thrown
    exception. *)
Inductive completion (A : Type) : Type :=
| Normal (a : A)
| Throw (e : js_error).
Arguments Normal {A} a.
Arguments Throw {A} e.

Definition cbind {A B : Type} (c : completion A) (k : A -> completion B)
  : completion B :=
  match c with
  | Normal a => k a
  | Throw e => Throw e
  end.

Declare Scope js_scope.
Delimit Scope js_scope with js.
Notation "x <- c ;; k" := (cbind c (fun x => k))
  (at level 61, c at next level, right associativity) : js_scope.
Notation "' p <- c ;; k" := (cbind c (fun x => let 'p := x in k))
  (at level 61, p pattern, c at next level, right associativity) : js_scope.
Local Open Scope js_scope.

Fixpoint cmap {A B : Type} (f : A -> completion B) (l : list A)
  : completion (list B) :=
  match l with
  | [] => Normal []
  | a :: l' =>
      b <- f a ;;
      bs <- cmap f l' ;;
      Normal (b :: bs)
  end.

(** [v[i]] *)
Definition get_index (v : jsval) (i : nat) : completion jsval :=
  match v with
  | JUndef | JNull => Throw TypeError
  | JNum _ => Normal JUndef
  | JArr l => Normal (nth i l JUndef)
  end.

(** [v.length] *)
Definition get_length (v : jsval) : completion jsval :=
  match v with
  | JUndef | JNull => Throw TypeError
  | JNum _ => Normal JUndef
  | JArr l => Normal (JNum (of_nat (length l)))
  end.

(** [v === undefined] *)
Definition is_undefined (v : jsval) : bool :=
  match v with JUndef => true | _ => false end.

(** [v === null] *)
Definition is_null (v : jsval) : bool :=
  match v with JNull => true | _ => false end.

(** A parameter declared [p = d] takes its default when the argument is
    undefined. *)
Definition default_arg (d v : jsval) : jsval :=
  if is_undefined v then d else v.

(** ToNumber.  An array goes through its string: the empty array and an
    array holding one undefined or null read as 0, an array of one other
    element reads as that element (the string of -0 is that of 0), a
    longer array is not a number. *)
Fixpoint to_number (v : jsval) : jsnum :=
  match v with
  | JUndef => NaN
  | JNull => of_Z 0
  | JNum n => n
  | JArr [] => of_Z 0
  | JArr [e] =>
      match e with
      | JUndef | JNull => of_Z 0
      | _ => match to_number e with
             | Zero _ => Zero false
             | n => n
             end
      end
  | JArr (_ :: _ :: _) => NaN
  end.

(** The pattern [[x, y]] bound to [v]: [v] has to be iterable, missing
    elements are undefined. *)
Definition destructure_pair (v : jsval) : completion (jsval * jsval) :=
  match v with
  | JArr l => Normal (nth 0%nat l JUndef, nth 1%nat l JUndef)
  | _ => Throw TypeError
  end.

(** One level of [Array.prototype.flat]. *)
Definition flat_elems (l : list jsval) : list jsval :=
  flat_map (fun e => match e with JArr es => es | _ => [e] end) l.

(** [v.flat()] *)
Definition array_flat (v : jsval) : completion (list jsval) :=
  match v with
  | JArr l => Normal (flat_elems l)
  | _ => Throw TypeError
  end.

(** [for (const e of v)]: [v] has to be iterable. *)
Definition iterate (v : jsval) : completion (list jsval) :=
  match v with
  | JArr l => Normal l
  | _ => Throw TypeError
  end.

(** ** The static helpers of the class *)

(** [_convert_to_list_of_trails]: a single trail is recognised by its
    first coordinate, a number, having no length. *)
Definition _convert_to_list_of_trails (trails_list_or_single_trail : jsval)
  : completion jsval :=
  first <- get_index trails_list_or_single_trail 0 ;;
  first_first <- get_index first 0 ;;
  len <- get_length first_first ;;
  let is_one_trail := is_undefined len in
  Normal (if is_one_trail
          then JArr [trails_list_or_single_trail]
          else trails_list_or_single_trail).

(** [_xy_norm_to_px]: the array of pixel pairs it builds is returned as a
    list of pairs of numbers. *)
Definition _xy_norm_to_px (xy_norm_list : jsval) (width_px height_px : Z)
  : completion (list (jsnum * jsnum)) :=
  let w_scale := sub (of_Z width_px) (of_Z 1) in
  let h_scale := sub (of_Z height_px) (of_Z 1) in
  match xy_norm_list with
  | JArr l =>
      cmap (fun p =>
              '(x, y) <- destructure_pair p ;;
              Normal (Math_round (mul (to_number x) w_scale),
                      Math_round (mul (to_number y) h_scale))) l
  | _ => Throw TypeError
  end.

(** ** The canvas *)

Record rgba : Type := mk_rgba {
  red : byte; green : byte; blue : byte; alpha : byte }.

(** The backing store of a canvas, by column and row. *)
Definition bitmap : Type := Z -> Z -> rgba.

Definition transparent_black : rgba := mk_rgba x00 x00 x00 x00.
Definition opaque_black : rgba := mk_rgba x00 x00 x00 xff.

Inductive composite_op : Type := SourceOver | Screen.
Inductive line_shape : Type := Butt_or_miter | Round.

Inductive path_cmd : Type :=
| Rect (x y width height : jsnum)
| MoveTo (x y : jsnum)
| LineTo (x y : jsnum).

(** The drawing state of a 2d context that the class touches. *)
Record ctx2d : Type := mk_ctx {
  strokeStyle : Z * Z * Z;
  fillStyle : Z * Z * Z;
  lineWidth : jsnum;
  lineCap : line_shape;
  lineJoin : line_shape;
  filter_blur_px : jsnum;
  globalCompositeOperation : composite_op;
  current_path : list path_cmd }.

Definition default_ctx : ctx2d :=
  mk_ctx (0, 0, 0) (0, 0, 0) (of_Z 1) Butt_or_miter Butt_or_miter (of_Z 0)
         SourceOver [].

Record canvas_t : Type := mk_canvas {
  cv_width : Z;
  cv_height : Z;
  pixels : bitmap;
  ctx : ctx2d }.

(** [document.createElement("canvas")] *)
Definition createElement_canvas : canvas_t :=
  mk_canvas 300 150 (fun _ _ => transparent_black) default_ctx.

(** Assigning [lineWidth]: zero, negative and non-finite values are
    ignored. *)
Definition set_lineWidth (v : jsval) (c : ctx2d) : ctx2d :=
  let n := to_number v in
  if gt n (of_Z 0) && lt n (Inf false)
  then mk_ctx (strokeStyle c) (fillStyle c) n (lineCap c) (lineJoin c)
              (filter_blur_px c) (globalCompositeOperation c) (current_path c)
  else c.

Record ImageData : Type := mk_image {
  im_width : Z;
  im_height : Z;
  data : list byte }.

(** Columns [0 .. n-1] (rows likewise). *)
Definition zrange (n : Z) : list Z := map Z.of_nat (seq 0 (Z.to_nat n)).

(** [getImageData(0, 0, sw, sh)]: four bytes a pixel, row after row. *)
Definition getImageData (bm : bitmap) (sw sh : Z) : ImageData :=
  mk_image sw sh
    (flat_map (fun y =>
       flat_map (fun x =>
         let p := bm x y in [red p; green p; blue p; alpha p])
         (zrange sw))
       (zrange sh)).

(** [data[idx]] on a Uint8ClampedArray: an element when [idx] is an
    integer inside the array, undefined otherwise. *)
Definition typed_array_get (d : list byte) (idx : jsnum) : jsval :=
  match int_of idx with
  | Some i =>
      if 0 <=? i
      then match nth_error d (Z.to_nat i) with
           | Some b => JNum (of_Z (Z.of_N (Byte.to_N b)))
           | None => JUndef
           end
      else JUndef
  | None => JUndef
  end.

(** ** The mask object *)

Record TrailComparisonMask : Type := mk_mask {
  canvas : canvas_t;
  w : positive;
  h : positive;
  img : option ImageData;
  _mask_value : Z;
  thickness : jsval;
  blur_size : jsval;
  trails_xy_norm : jsval }.

Definition require_image (o : option ImageData) : completion ImageData :=
  match o with
  | Some im => Normal im
  | None => Throw TypeError
  end.

(** The loop of [compare] over the pixel pairs, with its running
    [point_total]. *)
Fixpoint sum_under_points (m : TrailComparisonMask)
  (all_other_xy_px : list (jsnum * jsnum)) (point_total : jsnum)
  : completion jsnum :=
  match all_other_xy_px with
  | [] => Normal point_total
  | (x, y) :: rest =>
      if lt x (of_Z 0) || ge x (of_Z (Zpos (w m)))
         || lt y (of_Z 0) || ge y (of_Z (Zpos (h m)))
      then sum_under_points m rest point_total
      else
        let pixel_idx :=
          mul (add (mul y (of_Z (Zpos (w m)))) x) (of_Z 4) in
        im <- require_image (img m) ;;
        let pixel_red_value := typed_array_get (data im) pixel_idx in
        sum_under_points m rest (add point_total (to_number pixel_red_value))
  end.

(** [compare] *)
Definition compare (m : TrailComparisonMask) (other_trails_xy_norm : jsval)
  : completion jsnum :=
  other_xy_norm_list <- _convert_to_list_of_trails other_trails_xy_norm ;;
  all_other_xy_norm <- array_flat other_xy_norm_list ;;
  all_other_xy_px <-
    _xy_norm_to_px (JArr all_other_xy_norm) (Zpos (w m)) (Zpos (h m)) ;;
  point_total <- sum_under_points m all_other_xy_px (of_Z 0) ;;
  let num_points := of_nat (List.length all_other_xy_px) in
  let score := div (div point_total (of_Z (_mask_value m))) num_points in
  Normal score.

(** ** Methods that change the object *)

(** What a method can change: the object itself and the console. *)
Record world : Type := mk_world {
  self : TrailComparisonMask;
  console : list String.string }.

(** A method body: it ends normally or throws, and the changes made before
    a throw stay. *)
Definition Js (A : Type) : Type := world -> completion A * world.

Definition ret {A : Type} (a : A) : Js A := fun s => (Normal a, s).

Definition bind {A B : Type} (m : Js A) (k : A -> Js B) : Js B :=
  fun s =>
    match m s with
    | (Normal a, s') => k a s'
    | (Throw e, s') => (Throw e, s')
    end.

Definition lift {A : Type} (c : completion A) : Js A := fun s => (c, s).

Definition get_self : Js TrailComparisonMask := fun s => (Normal (self s), s).

Definition modify_self (f : TrailComparisonMask -> TrailComparisonMask)
  : Js unit :=
  fun s => (Normal tt, mk_world (f (self s)) (console s)).

Definition console_warn (msg : String.string) : Js unit :=
  fun s => (Normal tt, mk_world (self s) (console s ++ [msg])).

Notation "x <~ m ;; k" := (bind m (fun x => k))
  (at level 61, m at next level, right associativity) : js_scope.
Notation "m ;;; k" := (bind m (fun _ => k))
  (at level 61, right associativity) : js_scope.

Fixpoint for_each {A : Type} (body : A -> Js unit) (l : list A) : Js unit :=
  match l with
  | [] => ret tt
  | a :: l' => body a ;;; for_each body l'
  end.

Definition set_canvas (c : canvas_t) (m : TrailComparisonMask)
  : TrailComparisonMask :=
  mk_mask c (w m) (h m) (img m) (_mask_value m) (thickness m) (blur_size m)
          (trails_xy_norm m).

Definition set_img (i : option ImageData) (m : TrailComparisonMask)
  : TrailComparisonMask :=
  mk_mask (canvas m) (w m) (h m) i (_mask_value m) (thickness m)
          (blur_size m) (trails_xy_norm m).

Definition set_thickness (v : jsval) (m : TrailComparisonMask)
  : TrailComparisonMask :=
  mk_mask (canvas m) (w m) (h m) (img m) (_mask_value m) v (blur_size m)
          (trails_xy_norm m).

Definition set_blur_size (v : jsval) (m : TrailComparisonMask)
  : TrailComparisonMask :=
  mk_mask (canvas m) (w m) (h m) (img m) (_mask_value m) (thickness m) v
          (trails_xy_norm m).

Definition set_trails_xy_norm (v : jsval) (m : TrailComparisonMask)
  : TrailComparisonMask :=
  mk_mask (canvas m) (w m) (h m) (img m) (_mask_value m) (thickness m)
          (blur_size m) v.

Definition set_pixels (bm : bitmap) (c : canvas_t) : canvas_t :=
  mk_canvas (cv_width c) (cv_height c) bm (ctx c).

Definition set_ctx (x : ctx2d) (c : canvas_t) : canvas_t :=
  mk_canvas (cv_width c) (cv_height c) (pixels c) x.

Definition modify_canvas (f : canvas_t -> canvas_t) : Js unit :=
  modify_self (fun m => set_canvas (f (canvas m)) m).

Definition modify_ctx (f : ctx2d -> ctx2d) : Js unit :=
  modify_canvas (fun c => set_ctx (f (ctx c)) c).

(** Assigning [canvas.width] or [canvas.height] clears the bitmap and
    resets the drawing state. *)
Definition set_canvas_width (n : Z) (c : canvas_t) : canvas_t :=
  mk_canvas n (cv_height c) (fun _ _ => transparent_black) default_ctx.

Definition set_canvas_height (n : Z) (c : canvas_t) : canvas_t :=
  mk_canvas (cv_width c) n (fun _ _ => transparent_black) default_ctx.

Definition set_path (p : list path_cmd) (c : ctx2d) : ctx2d :=
  mk_ctx (strokeStyle c) (fillStyle c) (lineWidth c) (lineCap c) (lineJoin c)
         (filter_blur_px c) (globalCompositeOperation c) p.

Definition add_path (cmd : path_cmd) (c : ctx2d) : ctx2d :=
  set_path (current_path c ++ [cmd]) c.

Definition set_strokeStyle (rgb : Z * Z * Z) (c : ctx2d) : ctx2d :=
  mk_ctx rgb (fillStyle c) (lineWidth c) (lineCap c) (lineJoin c)
         (filter_blur_px c) (globalCompositeOperation c) (current_path c).

Definition set_fillStyle (rgb : Z * Z * Z) (c : ctx2d) : ctx2d :=
  mk_ctx (strokeStyle c) rgb (lineWidth c) (lineCap c) (lineJoin c)
         (filter_blur_px c) (globalCompositeOperation c) (current_path c).

Definition set_round_lines (c : ctx2d) : ctx2d :=
  mk_ctx (strokeStyle c) (fillStyle c) (lineWidth c) Round Round
         (filter_blur_px c) (globalCompositeOperation c) (current_path c).

Definition set_filter_blur (px : jsnum) (c : ctx2d) : ctx2d :=
  mk_ctx (strokeStyle c) (fillStyle c) (lineWidth c) (lineCap c) (lineJoin c)
         px (globalCompositeOperation c) (current_path c).

Definition set_composite (op : composite_op) (c : ctx2d) : ctx2d :=
  mk_ctx (strokeStyle c) (fillStyle c) (lineWidth c) (lineCap c) (lineJoin c)
         (filter_blur_px c) op (current_path c).

(** [v === n] for a number literal [n] *)
Definition strict_eq_number (v : jsval) (n : Z) : bool :=
  match v with
  | JNum a => ge a (of_Z n) && ge (of_Z n) a
  | _ => false
  end.

(** [f(...a[0])]: spreading the first pair of an empty array throws. *)
Definition spread_first (a : list (jsnum * jsnum))
  : completion (jsnum * jsnum) :=
  match a with
  | p :: _ => Normal p
  | [] => Throw TypeError
  end.

(** The fields [this.thickness] and [this.blur_size], for the methods whose
    parameters have the same names. *)
Definition this_thickness : TrailComparisonMask -> jsval := thickness.
Definition this_blur_size : TrailComparisonMask -> jsval := blur_size.

Section Methods.

(** What the browser paints: [stroke()] of the current path with the
    current drawing state, and [drawImage] of the canvas on itself. *)
Variable canvas_stroke : canvas_t -> bitmap.
Variable canvas_drawImage_self : canvas_t -> bitmap.

Definition stroke : Js unit :=
  modify_canvas (fun c => set_pixels (canvas_stroke c) c).

Definition drawImage_self : Js unit :=
  modify_canvas (fun c => set_pixels (canvas_drawImage_self c) c).

(** [draw_trails]; its [ctx] argument is the context of the object's own
    canvas at every call. *)
Definition draw_trails (trails_xy_norm : jsval) (clear_before_draw : bool)
  : Js unit :=
  m <~ get_self ;;
  let width_px := cv_width (canvas m) in
  let height_px := cv_height (canvas m) in
  (if clear_before_draw
   then modify_canvas (set_pixels (fun _ _ => transparent_black))
   else ret tt) ;;;
  trails_xy_norm_list <~ lift (_convert_to_list_of_trails trails_xy_norm) ;;
  modify_ctx (set_path []) ;;;
  trails <~ lift (iterate trails_xy_norm_list) ;;
  for_each
    (fun trail_xy_norm =>
       trail_xy_px <~ lift (_xy_norm_to_px trail_xy_norm width_px height_px) ;;
       start <~ lift (spread_first trail_xy_px) ;;
       modify_ctx (add_path (MoveTo (fst start) (snd start))) ;;;
       for_each
         (fun p => modify_ctx (add_path (LineTo (fst p) (snd p))))
         (tl trail_xy_px))
    trails ;;;
  stroke.

Definition store_image : Js unit :=
  m <~ get_self ;;
  modify_self
    (set_img (Some (getImageData (pixels (canvas m))
                                 (Zpos (w m)) (Zpos (h m))))).

(** [_generate_mask] *)
Definition _generate_mask : Js unit :=
  m <~ get_self ;;
  modify_canvas (set_canvas_width (Zpos (w m))) ;;;
  modify_canvas (set_canvas_height (Zpos (h m))) ;;;
  modify_ctx (add_path (Rect (of_Z 0) (of_Z 0)
                             (of_Z (Zpos (w m))) (of_Z (Zpos (h m))))) ;;;
  modify_ctx (set_fillStyle (0, 0, 0)) ;;;
  modify_canvas (set_pixels (fun _ _ => opaque_black)) ;;;
  len <~ lift (get_length (trails_xy_norm m)) ;;
  let no_trail_data := strict_eq_number len 0 in
  if no_trail_data then store_image
  else
    let clear_bg := false in
    let color := _mask_value m in
    modify_ctx (set_strokeStyle (color, color, color)) ;;;
    modify_ctx (set_lineWidth (thickness m)) ;;;
    modify_ctx set_round_lines ;;;
    let is_blurred := gt (to_number (blur_size m)) (of_Z 0) in
    (if is_blurred
     then
       modify_ctx (set_filter_blur (to_number (blur_size m))) ;;;
       draw_trails (trails_xy_norm m) clear_bg ;;;
       modify_ctx (set_composite Screen) ;;;
       for_each (fun _ => drawImage_self) (seq 0 2) ;;;
       modify_ctx (set_composite SourceOver)
     else ret tt) ;;;
    modify_ctx (set_filter_blur (of_Z 0)) ;;;
    draw_trails (trails_xy_norm m) clear_bg ;;;
    store_image.

(** [update_mask_parameters] *)
Definition update_mask_parameters (trails_xy_norm thickness blur_size : jsval)
  : Js unit :=
  let trails_xy_norm := default_arg JNull trails_xy_norm in
  let thickness := default_arg JNull thickness in
  let blur_size := default_arg JNull blur_size in
  let no_inputs := forallb is_null [trails_xy_norm; thickness; blur_size] in
  if no_inputs
  then console_warn
         "No parameters given when updating mask! Ignoring update"%string
  else
    modify_self (fun m =>
      set_thickness
        (if negb (is_null thickness) then thickness else this_thickness m)
        m) ;;;
    modify_self (fun m =>
      set_blur_size
        (if negb (is_null blur_size) then blur_size else this_blur_size m)
        m) ;;;
    (if negb (is_null trails_xy_norm)
     then
       l <~ lift (_convert_to_list_of_trails trails_xy_norm) ;;
       modify_self (set_trails_xy_norm l)
     else ret tt) ;;;
    _generate_mask.

(** The object as the constructor has it before it draws the first
    mask. *)
Definition fresh_mask (mask_width mask_height : positive)
  : TrailComparisonMask :=
  mk_mask createElement_canvas mask_width mask_height None 255
          JNull JNull (JArr []).

(** [new TrailComparisonMask(...)]: the new object, or the exception,
    and the console after it. *)
Definition constructor (trails_xy_norm_list : jsval)
  (mask_width mask_height : positive) (thickness blur_size : jsval)
  (out : list String.string)
  : completion TrailComparisonMask * list String.string :=
  let thickness := default_arg (JNum (of_Z 64)) thickness in
  let blur_size := default_arg (JNum (of_Z 32)) blur_size in
  let '(c, s) :=
    update_mask_parameters trails_xy_norm_list thickness blur_size
      (mk_world (fresh_mask mask_width mask_height) out) in
  (cbind c (fun _ => Normal (self s)), console s).

End Methods.

(** ** Well-formed trail data and its JavaScript form *)

(** A point is a pair of numbers, a trail a sequence of points, a trail
    set a sequence of trails. *)
Definition point : Type := jsnum * jsnum.
Definition trail : Type := list point.
Definition trailset : Type := list trail.

Definition js_point (p : point) : jsval :=
  JArr [JNum (fst p); JNum (snd p)].
Definition js_trail (t : trail) : jsval := JArr (map js_point t).
Definition js_trailset (ts : trailset) : jsval := JArr (map js_trail ts).

Definition total_points (ts : trailset) : nat := List.length (concat ts).

(** A finite number: not NaN, not an infinity. *)
Definition finite (a : jsnum) : bool :=
  match a with
  | Zero _ | Val _ => true
  | _ => false
  end.

Definition finite_point (p : point) : bool := finite (fst p) && finite (snd p).

(** The greatest length of a JavaScript array. *)
Definition max_array_length : Z := 2 ^ 32 - 1.

(** Every trail of the set has at least one point, the coordinates are
    finite numbers, and the points together fit one array, as the
    flattened query has to. *)
Definition well_formed (ts : trailset) : Prop :=
  Forall (fun t => t <> []) ts
  /\ Forall (fun p => finite_point p = true) (concat ts)
  /\ Z.of_nat (total_points ts) <= max_array_length.


(** ** The score as the specification words it *)

(** The pixel pair the transform computes for a point. *)
Definition map_px (width_px height_px : Z) (p : point) : jsnum * jsnum :=
  (Math_round (mul (fst p) (sub (of_Z width_px) (of_Z 1))),
   Math_round (mul (snd p) (sub (of_Z height_px) (of_Z 1)))).

(** round(c * (dim - 1)) on an axis of [dim] pixels, the product being
    the binary64 product of the program. *)
Definition px_of (dim : Z) (c : jsnum) : jsnum :=
  Math_round (mul c (of_Z (dim - 1))).

(** The pixel coordinate as an integer; there is none when the product
    overflows or is not a number. *)
Definition norm_to_px (dim : Z) (c : jsnum) : option Z :=
  int_of (px_of dim c).

Definition point_px (width height : Z) (p : point) : option (Z * Z) :=
  match norm_to_px width (fst p), norm_to_px height (snd p) with
  | Some x, Some y => Some (x, y)
  | _, _ => None
  end.

Definition in_bounds (width height : Z) (xy : Z * Z) : bool :=
  (0 <=? fst xy) && (fst xy <=? width - 1)
  && (0 <=? snd xy) && (snd xy <=? height - 1).

(** The intensity of the raster at a pixel: the red channel. *)
Definition intensity (bm : bitmap) (xy : Z * Z) : Z :=
  Z.of_N (Byte.to_N (red (bm (fst xy) (snd xy)))).

(** The point maps to a pixel of the raster. *)
Definition sampled (width height : Z) (p : point) : bool :=
  match point_px width height p with
  | Some xy => in_bounds width height xy
  | None => false
  end.

(** What a point adds to the running total. *)
Definition contribution (bm : bitmap) (width height : Z) (p : point) : Z :=
  match point_px width height p with
  | Some xy => if in_bounds width height xy then intensity bm xy else 0
  | None => 0
  end.

Definition running_total (bm : bitmap) (width height : Z) (pts : list point)
  : Z :=
  fold_right Z.add 0 (map (contribution bm width height) pts).

Definition max_intensity : Z := 255.

(** (running_total / max_intensity) / num_points, the two divisions being
    those of the program. *)
Definition spec_score (bm : bitmap) (width height : Z) (pts : list point)
  : jsnum :=
  div (div (of_Z (running_total bm width height pts)) (of_Z max_intensity))
      (of_nat (List.length pts)).

(** The mask holds the raster [bm]: its image is the pixel data of [bm] at
    the mask's size, four bytes a pixel and short enough for every index
    to be an exact number, and intensities are scaled by 255. *)
Definition holds_raster (m : TrailComparisonMask) (bm : bitmap) : Prop :=
  img m = Some (getImageData bm (Zpos (w m)) (Zpos (h m)))
  /\ _mask_value m = max_intensity
  /\ 4 * Zpos (w m) * Zpos (h m) <= 2 ^ 53.

(** The input of the shape helper has no point in its first trail: it is
    the empty list or a list that starts with an empty trail. *)
Definition first_trail_empty (v : jsval) : bool :=
  match v with
  | JArr [] => true
  | JArr (JArr [] :: _) => true
  | _ => false
  end.

(** [v[0][0]] *)
Definition element_0_0 (v : jsval) : completion jsval :=
  first <- get_index v 0 ;;
  get_index first 0.


(** A number [Math.round] can return for a finite argument or an
    overflowed product: an infinity, a zero or a non-zero integer. *)
Definition whole (a : jsnum) : bool :=
  match a with
  | NaN => false
  | Inf _ | Zero _ => true
  | Val q => match int_of (Val q) with Some _ => true | None => false end
  end.

(** The number that is the integer [z]; 0 is the positive zero. *)
Definition int_num (z : Z) : jsnum :=
  if z =? 0 then Zero false else Val (Zc z).

(** ** A small canvas for examples

    Stroking paints white the pixels that are vertices of the current
    path; drawing the canvas on itself changes nothing. *)

Module Example.

Definition white : rgba := mk_rgba xff xff xff xff.

Definition hits (x y : Z) (cmd : path_cmd) : bool :=
  match cmd with
  | MoveTo a b | LineTo a b =>
      match int_of a, int_of b with
      | Some u, Some v => (u =? x) && (v =? y)
      | _, _ => false
      end
  | _ => false
  end.

Definition stroke_vertices (c : canvas_t) : bitmap :=
  fun x y =>
    if existsb (hits x y) (current_path (ctx c)) then white
    else pixels c x y.

Definition drawImage_same (c : canvas_t) : bitmap := pixels c.

(** The binary64 value nearest to [a / b]. *)
Definition num (a : Z) (b : positive) : jsnum := round64 (Q2Qc (a # b)).

(** The diagonal of the unit square, through its centre. *)
Definition diagonal : trail :=
  [(num 0 1, num 0 1); (num 1 2, num 1 2); (num 1 1, num 1 1)].

Definition new_mask (trails : jsval) : completion TrailComparisonMask :=
  fst (constructor stroke_vertices drawImage_same trails 4 4
                   (JNum (of_Z 1)) (JNum (of_Z 0)) []).

(** The 4 x 4 mask of the diagonal. *)
Definition mask : TrailComparisonMask :=
  match new_mask (js_trail diagonal) with
  | Normal m => m
  | Throw _ => fresh_mask 4 4
  end.

Definition raster : bitmap := pixels (canvas mask).

Definition segment_a : trail := [(num 0 1, num 0 1); (num 1 4, num 3 4)].
Definition segment_b : trail := [(num 1 1, num 1 1); (num 3 2, num 1 2)].

End Example.

(** ** Properties of method bodies *)

(** The size and the intensity scale of the mask. *)
Definition same_config (m m' : TrailComparisonMask) : Prop :=
  w m' = w m /\ h m' = h m /\ _mask_value m' = _mask_value m.

(** A body that never changes the size or the intensity scale, whether it
    ends normally or throws. *)
Definition keeps_config {A : Type} (c : Js A) : Prop :=
  forall s, same_config (self s) (self (snd (c s))).

(** The image is the pixel data of the canvas. *)
Definition image_stored (m : TrailComparisonMask) : Prop :=
  img m = Some (getImageData (pixels (canvas m)) (Zpos (w m)) (Zpos (h m))).

(** A body that, when it ends normally, leaves the image stored. *)
Definition ends_stored {A : Type} (c : Js A) : Prop :=
  forall s a s', c s = (Normal a, s') -> image_stored (self s').

(** ** The path of a trail set *)

(** The sub-path [draw_trails] adds for one trail: a move to its first
    pixel, then a line to each pixel that follows. *)
Definition trail_path (width_px height_px : Z) (t : trail) : list path_cmd :=
  match map (map_px width_px height_px) t with
  | [] => []
  | start :: rest =>
      MoveTo (fst start) (snd start)
      :: map (fun p => LineTo (fst p) (snd p)) rest
  end.

(** The world with the current path of the context replaced. *)
Definition with_path (cmds : list path_cmd) (s : world) : world :=
  mk_world
    (set_canvas
       (set_ctx (set_path cmds (ctx (canvas (self s)))) (canvas (self s)))
       (self s))
    (console s).

Definition path_of (s : world) : list path_cmd :=
  current_path (ctx (canvas (self s))).

(** A number in [0, bound] that is not the negative zero. *)
Definition in_range (bound : Z) (a : jsnum) : Prop :=
  match a with
  | Zero false => True
  | Val r => (Zc 0 < r)%Qc /\ (r <= Zc bound)%Qc
  | _ => False
  end.

(** ** Integers among the numbers *)

Lemma Zc_this (z : Z) : this (Zc z) = inject_Z z.
Proof.
  unfold Zc. simpl. unfold Qred, inject_Z. simpl.
  generalize (Z.ggcd_gcd z 1) (Z.ggcd_correct_divisors z 1).
  destruct (Z.ggcd z 1) as [g [aa bb]]. simpl.
  rewrite Z.gcd_1_r. intros -> [Ha Hb].
  rewrite Z.mul_1_l in Ha, Hb. subst. reflexivity.
Qed.

Lemma Zc_add (a b : Z) : (Zc a + Zc b)%Qc = Zc (a + b).
Proof.
  unfold Qcplus. apply Q2Qc_eq_iff. rewrite !Zc_this, inject_Z_plus.
  reflexivity.
Qed.

Lemma Zc_mul (a b : Z) : (Zc a * Zc b)%Qc = Zc (a * b).
Proof.
  unfold Qcmult. apply Q2Qc_eq_iff. rewrite !Zc_this, inject_Z_mult.
  reflexivity.
Qed.

Lemma Zc_sub (a b : Z) : (Zc a - Zc b)%Qc = Zc (a - b).
Proof.
  unfold Qcminus, Qcopp, Qcplus. apply Q2Qc_eq_iff.
  change (this (Q2Qc (- Zc b))) with (Qred (- Zc b)).
  rewrite Qred_correct, !Zc_this.
  unfold Z.sub. rewrite inject_Z_plus, inject_Z_opp. reflexivity.
Qed.

Lemma Zc_compare (a b : Z) : Qccompare (Zc a) (Zc b) = Z.compare a b.
Proof.
  unfold Qccompare. rewrite !Zc_this. unfold Qcompare. simpl.
  rewrite !Z.mul_1_r. reflexivity.
Qed.

Lemma Zc_le (a b : Z) : (Zc a <= Zc b)%Qc <-> a <= b.
Proof.
  unfold Qcle. rewrite !Zc_this, <- Zle_Qle. reflexivity.
Qed.

Lemma Zc_lt (a b : Z) : (Zc a < Zc b)%Qc <-> a < b.
Proof.
  unfold Qclt. rewrite !Zc_this, <- Zlt_Qlt. reflexivity.
Qed.

Lemma Zc_inj (a b : Z) : Zc a = Zc b -> a = b.
Proof.
  intros E. apply (f_equal this) in E. rewrite !Zc_this in E.
  injection E. trivial.
Qed.

Lemma Zc_is_zero (a : Z) : Qc_is_zero (Zc a) = (a =? 0).
Proof.
  unfold Qc_is_zero. rewrite Zc_compare. unfold Z.eqb.
  destruct a; reflexivity.
Qed.

Lemma Zc_is_neg (a : Z) : Qc_is_neg (Zc a) = (a <? 0).
Proof.
  unfold Qc_is_neg. rewrite Zc_compare. unfold Z.ltb.
  destruct a; reflexivity.
Qed.

(** [Math.round] returns the nearest integer, a tie going up. *)
Lemma round_Z_nearest (q : Qc) :
  (Zc (round_Z q) - Q2Qc (1 # 2) <= q)%Qc
  /\ (q < Zc (round_Z q) + Q2Qc (1 # 2))%Qc.
Proof.
  unfold round_Z.
  set (r := (q + Q2Qc (1 # 2))%Qc).
  assert (Hlo : (Zc (Qfloor r) <= r)%Qc).
  { unfold Qcle. rewrite Zc_this. apply Qfloor_le. }
  assert (Hhi : (r < Zc (Qfloor r + 1))%Qc).
  { unfold Qclt. rewrite Zc_this. apply Qlt_floor. }
  rewrite <- Zc_add in Hhi.
  assert (H1 : Zc 1 = (Q2Qc (1 # 2) + Q2Qc (1 # 2))%Qc)
    by (apply Qc_is_canon; reflexivity).
  split.
  - apply Qcle_minus_iff. apply Qcle_minus_iff in Hlo.
    replace (q + - (Zc (Qfloor r) - Q2Qc (1 # 2)))%Qc
      with (r + - Zc (Qfloor r))%Qc by (unfold r; ring).
    exact Hlo.
  - apply Qclt_minus_iff. apply Qclt_minus_iff in Hhi.
    replace (Zc (Qfloor r) + Q2Qc (1 # 2) + - q)%Qc
      with (Zc (Qfloor r) + Zc 1 + - r)%Qc
      by (unfold r; rewrite H1; ring).
    exact Hhi.
Qed.

Lemma round_Z_of_Z (z : Z) : round_Z (Zc z) = z.
Proof.
  pose proof (round_Z_nearest (Zc z)) as [Hlo Hhi].
  remember (round_Z (Zc z)) as n eqn:En. clear En.
  assert (Hhalf : (Q2Qc (1 # 2) < Zc 1)%Qc) by reflexivity.
  assert (Hpos : (Zc 0 < Q2Qc (1 # 2))%Qc) by reflexivity.
  assert (H1 : (Zc n < Zc (z + 1))%Qc).
  { rewrite <- Zc_add.
    apply Qcle_lt_trans with (Zc z + Q2Qc (1 # 2))%Qc.
    - apply Qcle_minus_iff. apply Qcle_minus_iff in Hlo.
      replace (Zc z + Q2Qc (1 # 2) + - Zc n)%Qc
        with (Zc z + - (Zc n - Q2Qc (1 # 2)))%Qc by ring.
      exact Hlo.
    - apply Qclt_minus_iff.
      replace (Zc z + Zc 1 + - (Zc z + Q2Qc (1 # 2)))%Qc
        with (Zc 1 + - Q2Qc (1 # 2))%Qc by ring.
      apply Qclt_minus_iff. exact Hhalf. }
  assert (H2 : (Zc z < Zc (n + 1))%Qc).
  { rewrite <- Zc_add.
    apply Qclt_trans with (Zc n + Q2Qc (1 # 2))%Qc; [exact Hhi|].
    apply Qclt_minus_iff.
    replace (Zc n + Zc 1 + - (Zc n + Q2Qc (1 # 2)))%Qc
      with (Zc 1 + - Q2Qc (1 # 2))%Qc by ring.
    apply Qclt_minus_iff. exact Hhalf. }
  apply (proj1 (Zc_lt _ _)) in H1. apply (proj1 (Zc_lt _ _)) in H2. lia.
Qed.

Lemma round_Z_monotone (p q : Qc) : (p <= q)%Qc -> round_Z p <= round_Z q.
Proof.
  intros Hpq. unfold round_Z. apply Qfloor_resp_le.
  change (p + Q2Qc (1 # 2) <= q + Q2Qc (1 # 2))%Qc.
  apply Qcplus_le_compat; [exact Hpq|apply Qcle_refl].
Qed.

(** ** Integers among the binary64 values *)

Lemma round_half_even_one (n : Z) : round_half_even n 1 = n.
Proof.
  unfold round_half_even. rewrite Z.div_1_r, Z.mod_1_r. reflexivity.
Qed.

Lemma floor_log2_int (n : positive) : floor_log2 n 1 = Z.log2 (Zpos n).
Proof.
  unfold floor_log2. change (Z.log2 1) with 0. rewrite Z.sub_0_r.
  pose proof (Z.log2_nonneg (Zpos n)) as H0.
  destruct (Z.log2_spec (Zpos n)) as [Hlo _]; [lia|].
  destruct (Z.leb_spec 0 (Z.log2 (Zpos n))) as [_|Hbad]; [|lia].
  destruct (Z.ltb_spec (Zpos n) (1 * 2 ^ Z.log2 (Zpos n))) as [Hbad|_];
    [lia|reflexivity].
Qed.

Lemma Q2Qc_dyadic (z k : Z) :
  0 < k -> Q2Qc (z * 2 ^ k # Z.to_pos (2 ^ k)) = Zc z.
Proof.
  intros Hk. unfold Zc. apply Q2Qc_eq_iff. unfold Qeq, inject_Z.
  cbn [Qnum Qden]. rewrite Z2Pos.id by (apply Z.pow_pos_nonneg; lia). lia.
Qed.

(** A positive integer below 2^53 is a binary64 value. *)
Lemma round64_int (z : Z) :
  0 < z < 2 ^ 53 -> round64 (Zc z) = Val (Zc z).
Proof.
  intros [Hpos Hlt]. unfold round64.
  rewrite (Zc_this z). cbn [Qnum Qden inject_Z].
  destruct z as [|n|n]; try lia.
  assert (HL : 0 <= Z.log2 (Zpos n) <= 52).
  { split; [apply Z.log2_nonneg|].
    apply Z.lt_succ_r. apply Z.log2_lt_pow2; lia. }
  unfold round64_pos, rounded_mantissa, ulp_exponent.
  rewrite floor_log2_int.
  set (L := Z.log2 (Zpos n)) in *.
  rewrite Z.max_l by lia.
  destruct (Z.leb_spec 0 (L - 52)) as [Hp|Hp].
  - assert (E : L - 52 = 0) by lia. rewrite E.
    change (2 ^ 0) with 1. rewrite !Z.mul_1_r, round_half_even_one.
    destruct (Z.eqb_spec (Zpos n) 0) as [Hbad|_]; [lia|].
    destruct (Z.leb_spec (2 ^ 1024) (Zpos n)) as [Hbad|_].
    + assert (2 ^ 53 < 2 ^ 1024) by (apply Z.pow_lt_mono_r; lia). lia.
    + unfold dyadic. cbn [Z.leb Z.compare]. rewrite Z.mul_1_r. reflexivity.
  - rewrite round_half_even_one.
    assert (Hk : 0 < - (L - 52)) by lia.
    assert (H2 : 0 < 2 ^ (- (L - 52))) by (apply Z.pow_pos_nonneg; lia).
    destruct (Z.eqb_spec (Zpos n * 2 ^ (- (L - 52))) 0) as [Hbad|_]; [nia|].
    rewrite (Z.pow_neg_r 2 (L - 52)) by lia. rewrite Z.mul_0_r.
    destruct (Z.leb_spec (2 ^ 1024) 0) as [Hbad|_].
    + assert (0 < 2 ^ 1024) by (apply Z.pow_pos_nonneg; lia). lia.
    + unfold dyadic.
      destruct (Z.leb_spec 0 (L - 52)) as [Hbad|_]; [lia|].
      rewrite Q2Qc_dyadic by lia. reflexivity.
Qed.

Lemma of_Z_int (z : Z) : 0 <= z < 2 ^ 53 -> of_Z z = int_num z.
Proof.
  intros Hz. unfold of_Z, int_num.
  destruct (Z.eqb_spec z 0) as [->|Hnz]; [reflexivity|].
  apply round64_int. lia.
Qed.

Lemma int_of_Val_Zc (z : Z) : int_of (Val (Zc z)) = Some z.
Proof. unfold int_of. rewrite (Zc_this z). reflexivity. Qed.

Lemma int_of_int_num (z : Z) : int_of (int_num z) = Some z.
Proof.
  unfold int_num. destruct (Z.eqb_spec z 0) as [->|_]; [reflexivity|].
  apply int_of_Val_Zc.
Qed.

Lemma int_of_cases (a : jsnum) (z : Z) :
  int_of a = Some z ->
  (exists s, a = Zero s /\ z = 0) \/ a = Val (Zc z).
Proof.
  destruct a as [|s|s|q]; cbn [int_of]; try discriminate.
  - intros E. injection E as <-. left. exists s. split; reflexivity.
  - destruct (Z.eqb_spec (Zpos (Qden q)) 1) as [Hd|_]; [|discriminate].
    intros E. injection E as <-. right. f_equal.
    apply Qc_is_canon. rewrite Zc_this.
    destruct q as [[n d] Hc]. cbn [this Qnum Qden] in *.
    injection Hd as ->. reflexivity.
Qed.

Lemma fin_value_int (a : jsnum) (z : Z) :
  int_of a = Some z -> fin_value a = Zc z.
Proof.
  intros H. destruct (int_of_cases a z H) as [(s & -> & ->)| ->]; reflexivity.
Qed.

Lemma lt_int (a b : jsnum) (x y : Z) :
  int_of a = Some x -> int_of b = Some y -> lt a b = (x <? y).
Proof.
  intros Ha Hb.
  assert (E : lt a b = match Qccompare (fin_value a) (fin_value b) with
                       | Lt => true | _ => false end).
  { destruct a, b; try discriminate Ha; try discriminate Hb; reflexivity. }
  rewrite E, (fin_value_int a x Ha), (fin_value_int b y Hb), Zc_compare.
  reflexivity.
Qed.

Lemma ge_int (a b : jsnum) (x y : Z) :
  int_of a = Some x -> int_of b = Some y -> ge a b = (y <=? x).
Proof.
  intros Ha Hb.
  assert (E : ge a b = match Qccompare (fin_value a) (fin_value b) with
                       | Lt => false | _ => true end).
  { destruct a, b; try discriminate Ha; try discriminate Hb; reflexivity. }
  rewrite E, (fin_value_int a x Ha), (fin_value_int b y Hb), Zc_compare.
  unfold Z.leb. rewrite (Z.compare_antisym x y).
  destruct (x ?= y); reflexivity.
Qed.

Lemma mul_int (a b : jsnum) (x y : Z) :
  int_of a = Some x -> int_of b = Some y ->
  0 <= x -> 0 <= y -> x * y < 2 ^ 53 ->
  int_of (mul a b) = Some (x * y).
Proof.
  intros Ha Hb Hx Hy Hxy.
  destruct (int_of_cases a x Ha) as [(s & -> & ->)| ->];
    destruct (int_of_cases b y Hb) as [(t & -> & ->)| ->].
  - reflexivity.
  - reflexivity.
  - cbn [mul]. rewrite Z.mul_0_r. reflexivity.
  - cbn [mul]. rewrite Zc_mul, Zc_is_zero.
    destruct (Z.eqb_spec (x * y) 0) as [->|Hnz]; [reflexivity|].
    rewrite round64_int by lia. apply int_of_Val_Zc.
Qed.

Lemma add_int (a b : jsnum) (x y : Z) :
  int_of a = Some x -> int_of b = Some y ->
  0 <= x -> 0 <= y -> x + y < 2 ^ 53 ->
  int_of (add a b) = Some (x + y).
Proof.
  intros Ha Hb Hx Hy Hxy.
  destruct (int_of_cases a x Ha) as [(s & -> & ->)| ->];
    destruct (int_of_cases b y Hb) as [(t & -> & ->)| ->].
  - reflexivity.
  - cbn [add]. apply int_of_Val_Zc.
  - cbn [add]. rewrite Z.add_0_r. apply int_of_Val_Zc.
  - cbn [add]. rewrite Zc_add, Zc_is_zero.
    destruct (Z.eqb_spec (x + y) 0) as [->|Hnz]; [reflexivity|].
    rewrite round64_int by lia. apply int_of_Val_Zc.
Qed.

(** Adding integers keeps the running total exact, and positive. *)
Lemma add_int_num (x y : Z) :
  0 <= x -> 0 <= y -> x + y < 2 ^ 53 ->
  add (int_num x) (int_num y) = int_num (x + y).
Proof.
  intros Hx Hy Hxy. unfold int_num.
  destruct (Z.eqb_spec x 0) as [->|Hx0];
    destruct (Z.eqb_spec y 0) as [->|Hy0]; cbn [add andb Z.add].
  - reflexivity.
  - destruct (Z.eqb_spec y 0); [contradiction|reflexivity].
  - rewrite Z.add_0_r. destruct (Z.eqb_spec x 0); [contradiction|reflexivity].
  - rewrite Zc_add, Zc_is_zero.
    destruct (Z.eqb_spec (x + y) 0) as [E|_]; [lia|].
    apply round64_int. lia.
Qed.

Lemma sub_one (dim : Z) :
  1 <= dim < 2 ^ 53 -> sub (of_Z dim) (of_Z 1) = of_Z (dim - 1).
Proof.
  intros Hd. rewrite !of_Z_int by lia. unfold int_num.
  destruct (Z.eqb_spec dim 0) as [E|_]; [lia|].
  cbn [Z.eqb sub]. rewrite Zc_sub, Zc_is_zero.
  destruct (Z.eqb_spec (dim - 1) 0) as [E|Hnz]; [reflexivity|].
  apply round64_int. lia.
Qed.

(** ** Rounding keeps bounds *)

Lemma Qcle_Q2Qc (x y : Q) : (x <= y)%Q -> (Q2Qc x <= Q2Qc y)%Qc.
Proof.
  intros H. unfold Qcle, Q2Qc. cbn [this]. rewrite !Qred_correct. exact H.
Qed.

Lemma Qclt_Q2Qc (x y : Q) : (x < y)%Q -> (Q2Qc x < Q2Qc y)%Qc.
Proof.
  intros H. unfold Qclt, Q2Qc. cbn [this]. rewrite !Qred_correct. exact H.
Qed.

Lemma Qc_div_this (x y : Qc) : (this (x / y)%Qc == this x / this y)%Q.
Proof.
  unfold Qcdiv, Qcmult, Qcinv, Q2Qc. cbn [this].
  rewrite !Qred_correct. reflexivity.
Qed.

Lemma Qclt_asym (a b : Qc) : (a < b)%Qc -> (b < a)%Qc -> False.
Proof.
  intros H1 H2. apply (Qclt_not_le _ _ H1). apply Qclt_le_weak. exact H2.
Qed.

Lemma Qc_pos_not_neg (q : Qc) : (Zc 0 < q)%Qc -> Qc_is_neg q = false.
Proof.
  intros H. unfold Qc_is_neg.
  destruct (Qccompare q (Zc 0)) eqn:E; try reflexivity.
  apply Qclt_alt in E. exfalso. exact (Qclt_asym _ _ E H).
Qed.

Lemma round_half_even_le (n d K : Z) :
  0 <= n -> 0 < d -> n <= K * d -> round_half_even n d <= K.
Proof.
  intros Hn Hd HK. unfold round_half_even.
  pose proof (Z.div_mod n d ltac:(lia)) as Hdm.
  pose proof (Z.mod_pos_bound n d Hd) as Hr.
  assert (Hq : n / d <= K) by (apply Z.div_le_upper_bound; lia).
  destruct (Z.eq_dec (n / d) K) as [E|Hne].
  - assert (n mod d = 0) by nia.
    replace (2 * (n mod d) ?= d) with Lt; [lia|].
    symmetry. apply Z.compare_lt_iff. lia.
  - destruct (2 * (n mod d) ?= d); [destruct (Z.even (n / d))| |]; lia.
Qed.

Lemma round_half_even_nonneg (n d : Z) :
  0 <= n -> 0 < d -> 0 <= round_half_even n d.
Proof.
  intros Hn Hd. unfold round_half_even.
  pose proof (Z.div_pos n d Hn Hd).
  destruct (2 * (n mod d) ?= d); [destruct (Z.even (n / d))| |]; lia.
Qed.

Lemma floor_log2_le (n d : positive) (k : Z) :
  0 <= k -> Zpos n < Zpos d * 2 ^ (k + 1) -> floor_log2 n d <= k.
Proof.
  intros Hk Hlt. unfold floor_log2.
  set (ln := Z.log2 (Zpos n)). set (ld := Z.log2 (Zpos d)).
  destruct (Z.log2_spec (Zpos n)) as [Hn1 _]; [lia|]. fold ln in Hn1.
  destruct (Z.log2_spec (Zpos d)) as [_ Hd2]; [lia|]. fold ld in Hd2.
  assert (Hln : 0 <= ln) by apply Z.log2_nonneg.
  assert (Hld : 0 <= ld) by apply Z.log2_nonneg.
  assert (He0 : ln - ld <= k + 1).
  { assert (H : 2 ^ ln < 2 ^ (ld + k + 2)).
    { replace (ld + k + 2) with (Z.succ ld + (k + 1)) by lia.
      rewrite Z.pow_add_r by lia.
      assert (0 < 2 ^ (k + 1)) by (apply Z.pow_pos_nonneg; lia). nia. }
    apply Z.pow_lt_mono_r_iff in H; lia. }
  destruct (Z.eq_dec (ln - ld) (k + 1)) as [E|Hne].
  - rewrite E. destruct (Z.leb_spec 0 (k + 1)) as [_|Hbad]; [|lia].
    destruct (Z.ltb_spec (Zpos n) (Zpos d * 2 ^ (k + 1))) as [_|Hbad]; lia.
  - destruct (if 0 <=? ln - ld
              then Zpos n <? Zpos d * 2 ^ (ln - ld)
              else Zpos n * 2 ^ (- (ln - ld)) <? Zpos d); lia.
Qed.

Lemma round64_never_NaN (q : Qc) : round64 q <> NaN.
Proof.
  unfold round64, round64_pos.
  destruct (Qnum q) as [|n|n]; try discriminate;
    destruct (_ =? 0); try discriminate;
    destruct (_ <=? _); discriminate.
Qed.

(** Rounding a positive rational that is at most the integer [B] gives a
    value that is at most [B]. *)
Lemma round64_le_int (q : Qc) (B : Z) :
  (Zc 0 < q)%Qc -> (q <= Zc B)%Qc -> 0 < B < 2 ^ 53 ->
  in_range B (round64 q).
Proof.
  intros Hpos Hle HB.
  unfold Qclt in Hpos. unfold Qcle in Hle. rewrite Zc_this in Hpos, Hle.
  unfold Qlt in Hpos. unfold Qle in Hle.
  cbn [Qnum Qden inject_Z] in Hpos, Hle.
  unfold round64.
  destruct (Qnum q) as [|n|n] eqn:En; try lia.
  set (d := Qden q) in *.
  assert (Hnd : Zpos n <= B * Zpos d) by lia.
  assert (He : floor_log2 n d <= 52).
  { apply floor_log2_le; [lia|]. change (52 + 1) with 53. nia. }
  unfold round64_pos, rounded_mantissa, ulp_exponent.
  set (p := Z.max (floor_log2 n d - 52) (-1074)).
  assert (Hp : p <= 0) by lia.
  destruct (Z.leb_spec 0 p) as [Hp0|Hp0].
  - assert (E : p = 0) by lia. rewrite E.
    change (2 ^ 0) with 1. rewrite !Z.mul_1_r.
    pose proof (round_half_even_le (Zpos n) (Zpos d) B ltac:(lia) ltac:(lia)
                  Hnd) as Hm.
    pose proof (round_half_even_nonneg (Zpos n) (Zpos d) ltac:(lia)
                  ltac:(lia)) as Hm0.
    set (m := round_half_even (Zpos n) (Zpos d)) in *.
    destruct (Z.eqb_spec m 0) as [_|Hnz]; [exact I|].
    destruct (Z.leb_spec (2 ^ 1024) m) as [Hbad|_].
    + assert (2 ^ 53 < 2 ^ 1024) by (apply Z.pow_lt_mono_r; lia). lia.
    + unfold in_range, dyadic. cbn [Z.leb Z.compare]. rewrite Z.mul_1_r.
      split; [apply Zc_lt|apply Zc_le]; lia.
  - set (k := - p) in *.
    assert (Hk : 0 < k) by lia.
    assert (H2k : 0 < 2 ^ k) by (apply Z.pow_pos_nonneg; lia).
    pose proof (round_half_even_le (Zpos n * 2 ^ k) (Zpos d) (B * 2 ^ k)
                  ltac:(nia) ltac:(lia) ltac:(nia)) as Hm.
    pose proof (round_half_even_nonneg (Zpos n * 2 ^ k) (Zpos d) ltac:(nia)
                  ltac:(lia)) as Hm0.
    set (m := round_half_even (Zpos n * 2 ^ k) (Zpos d)) in *.
    destruct (Z.eqb_spec m 0) as [_|Hnz]; [exact I|].
    rewrite (Z.pow_neg_r 2 p) by lia. rewrite Z.mul_0_r.
    destruct (Z.leb_spec (2 ^ 1024) 0) as [Hbad|_].
    + assert (0 < 2 ^ 1024) by (apply Z.pow_pos_nonneg; lia). lia.
    + unfold in_range, dyadic.
      destruct (Z.leb_spec 0 p) as [Hbad|_]; [lia|]. fold k.
      split.
      * apply (Qclt_Q2Qc (inject_Z 0) (m # Z.to_pos (2 ^ k))).
        unfold Qlt, inject_Z. cbn [Qnum Qden]. lia.
      * apply (Qcle_Q2Qc (m # Z.to_pos (2 ^ k)) (inject_Z B)).
        unfold Qle, inject_Z. cbn [Qnum Qden].
        rewrite Z2Pos.id by lia. lia.
Qed.

(** A quotient of a bounded number by a positive integer stays bounded. *)
Lemma div_in_range (a : jsnum) (A B C : Z) :
  in_range A a -> 0 < B < 2 ^ 53 -> A <= C * B -> 0 < C < 2 ^ 53 ->
  in_range C (div a (of_Z B)).
Proof.
  intros Ha HB HA HC.
  rewrite of_Z_int by lia. unfold int_num.
  destruct (Z.eqb_spec B 0) as [E|_]; [lia|].
  destruct a as [|s|[|]|r]; try contradiction.
  - cbn [div]. rewrite Zc_is_neg.
    destruct (Z.ltb_spec B 0); [lia|exact I].
  - destruct Ha as [Hr0 HrA]. cbn [div]. rewrite Zc_is_zero.
    destruct (Z.eqb_spec B 0) as [E|_]; [lia|].
    rewrite (Qc_pos_not_neg r Hr0), Zc_is_neg.
    destruct (Z.ltb_spec B 0) as [E|_]; [lia|].
    destruct (Qc_is_zero (r / Zc B)); [exact I|].
    assert (HB' : (0 < inject_Z B)%Q).
    { change 0%Q with (inject_Z 0). rewrite <- Zlt_Qlt. lia. }
    unfold Qclt in Hr0. rewrite Zc_this in Hr0.
    unfold Qcle in HrA. rewrite Zc_this in HrA.
    apply round64_le_int; [| |exact HC].
    + unfold Qclt. rewrite Qc_div_this, !Zc_this.
      apply Qlt_shift_div_l; [exact HB'|].
      rewrite Qmult_0_l. exact Hr0.
    + unfold Qcle. rewrite Qc_div_this, !Zc_this.
      apply Qle_shift_div_r; [exact HB'|].
      apply Qle_trans with (inject_Z A); [exact HrA|].
      rewrite <- inject_Z_mult, <- Zle_Qle. exact HA.
Qed.

Lemma in_range_of_Z (T B : Z) :
  0 <= T <= B -> B < 2 ^ 53 -> in_range B (of_Z T).
Proof.
  intros HT HB. rewrite of_Z_int by lia. unfold int_num.
  destruct (Z.eqb_spec T 0) as [_|Hnz]; [exact I|].
  split; [apply Zc_lt|apply Zc_le]; lia.
Qed.

Lemma in_range_unit (a : jsnum) :
  in_range 1 a -> le (of_Z 0) a = true /\ le a (of_Z 1) = true.
Proof.
  destruct a as [|s|[|]|r]; try contradiction.
  - intros _. split; reflexivity.
  - intros [H0 H1]. split.
    + change (le (of_Z 0) (Val r))
        with (match Qccompare r (Zc 0) with Lt => false | _ => true end).
      destruct (Qccompare r (Zc 0)) eqn:E; try reflexivity.
      apply Qclt_alt in E. exfalso. exact (Qclt_asym _ _ E H0).
    + change (le (Val r) (of_Z 1)) with (ge (of_Z 1) (Val r)).
      rewrite of_Z_int by (split; [lia|reflexivity]).
      change (ge (int_num 1) (Val r))
        with (match Qccompare (Zc 1) r with Lt => false | _ => true end).
      destruct (Qccompare (Zc 1) r) eqn:E; try reflexivity.
      apply Qclt_alt in E. exfalso. exact (Qclt_not_le _ _ E H1).
Qed.

(** [Math.round] of a bounded number is an integer within the bound. *)
Lemma Math_round_in_range (a : jsnum) (B : Z) :
  in_range B a -> 0 <= B ->
  exists z, int_of (Math_round a) = Some z /\ 0 <= z <= B.
Proof.
  destruct a as [|s|[|]|r]; try contradiction.
  - intros _ HB. exists 0. split; [reflexivity|lia].
  - intros [H0 H1] HB. cbn [Math_round].
    assert (Hlo : 0 <= round_Z r).
    { rewrite <- (round_Z_of_Z 0). apply round_Z_monotone.
      apply Qclt_le_weak. exact H0. }
    assert (Hhi : round_Z r <= B).
    { rewrite <- (round_Z_of_Z B). apply round_Z_monotone. exact H1. }
    destruct (Z.eqb_spec (round_Z r) 0) as [E|_].
    + exists 0. split; [reflexivity|lia].
    + exists (round_Z r). split; [apply int_of_Val_Zc|lia].
Qed.

(** What [Math.round] returns for a finite number times an integer: never
    NaN, never a fraction. *)
Lemma Math_round_mul_whole (c : jsnum) (k : Z) :
  finite c = true -> 0 <= k < 2 ^ 53 ->
  whole (Math_round (mul c (of_Z k))) = true.
Proof.
  intros Hc Hk. rewrite of_Z_int by lia. unfold int_num.
  assert (Hr : forall a, a <> NaN -> whole (Math_round a) = true).
  { intros [|s|s|q] Ha; try reflexivity; [contradiction|].
    cbn [Math_round]. destruct (round_Z q =? 0); [reflexivity|].
    unfold whole. rewrite int_of_Val_Zc. reflexivity. }
  apply Hr.
  destruct c as [|s|s|q]; try discriminate Hc;
    destruct (k =? 0); cbn [mul]; try discriminate.
  destruct (Qc_is_zero (q * Zc k)); [discriminate|apply round64_never_NaN].
Qed.

(** Values of the arithmetic: 191 / 255 is not a binary64 number and is
    rounded; the number nearest to 0.35, times 10, rounds up to 3.5; a
    product beyond the largest number overflows to infinity; 0.1 + 0.2 is
    the number above 0.3. *)
Lemma binary64_values :
  this (fin_value (div (of_Z 191) (of_Z 255)))
  = (843321106693887 # 1125899906842624)%Q
  /\ this (fin_value (round64 (Q2Qc (7 # 20))))
     = (3152519739159347 # 9007199254740992)%Q
  /\ this (fin_value (mul (round64 (Q2Qc (7 # 20))) (of_Z 10))) = (7 # 2)%Q
  /\ mul (of_Z (10 ^ 308)) (of_Z 511) = Inf false
  /\ this (fin_value (add (round64 (Q2Qc (1 # 10)))
                          (round64 (Q2Qc (2 # 10)))))
     = (1351079888211149 # 4503599627370496)%Q.
Proof. vm_compute. repeat split; reflexivity. Qed.

(** ** The layout of the pixel data *)

Lemma flat_map_length_const {A B : Type} (f : A -> list B) (k : nat)
  (l : list A) :
  (forall a, List.length (f a) = k) ->
  List.length (flat_map f l) = (List.length l * k)%nat.
Proof.
  intros Hk. induction l as [|a l IH]; simpl; [reflexivity|].
  rewrite length_app, Hk, IH. reflexivity.
Qed.

Lemma nth_error_flat_map_chunk {A B : Type} (f : A -> list B) (k : nat) :
  (forall a, List.length (f a) = k) ->
  forall (l : list A) (i j : nat) (a : A),
    nth_error l i = Some a -> (j < k)%nat ->
    nth_error (flat_map f l) (i * k + j) = nth_error (f a) j.
Proof.
  intros Hk l. induction l as [|b l IH]; intros i j a Hi Hj.
  - destruct i; discriminate.
  - destruct i as [|i]; simpl in Hi |- *.
    + injection Hi as ->. apply nth_error_app1. rewrite Hk. exact Hj.
    + rewrite nth_error_app2 by (rewrite Hk; lia).
      rewrite Hk.
      replace (k + i * k + j - k)%nat with (i * k + j)%nat by lia.
      apply IH; assumption.
Qed.

Lemma zrange_length (n : Z) : List.length (zrange n) = Z.to_nat n.
Proof. unfold zrange. rewrite length_map, length_seq. reflexivity. Qed.

Lemma zrange_nth_error (n i : Z) :
  0 <= i < n -> nth_error (zrange n) (Z.to_nat i) = Some i.
Proof.
  intros Hi. unfold zrange.
  rewrite nth_error_map, nth_error_seq.
  destruct (Nat.ltb_spec (Z.to_nat i) (Z.to_nat n)) as [_|Hbad]; [|lia].
  simpl. f_equal. lia.
Qed.

(** The red byte of pixel (x, y) sits at index (y * width + x) * 4. *)
Lemma getImageData_red (bm : bitmap) (sw sh x y : Z) :
  0 <= x < sw -> 0 <= y < sh ->
  nth_error (data (getImageData bm sw sh)) (Z.to_nat ((y * sw + x) * 4))
  = Some (red (bm x y)).
Proof.
  intros Hx Hy. unfold getImageData. simpl.
  replace (Z.to_nat ((y * sw + x) * 4))
    with (Z.to_nat y * (Z.to_nat sw * 4) + (Z.to_nat x * 4 + 0))%nat
    by nia.
  rewrite (nth_error_flat_map_chunk _ (Z.to_nat sw * 4)) with (a := y).
  - rewrite (nth_error_flat_map_chunk _ 4) with (a := x).
    + reflexivity.
    + reflexivity.
    + apply zrange_nth_error. exact Hx.
    + lia.
  - intros a. rewrite (flat_map_length_const _ 4) by reflexivity.
    rewrite zrange_length. reflexivity.
  - apply zrange_nth_error. exact Hy.
  - lia.
Qed.

Lemma typed_array_get_int (d : list byte) (idx : jsnum) (i : Z) (b : byte) :
  int_of idx = Some i -> 0 <= i -> nth_error d (Z.to_nat i) = Some b ->
  typed_array_get d idx = JNum (of_Z (Z.of_N (Byte.to_N b))).
Proof.
  intros Hidx Hi Hb. unfold typed_array_get. rewrite Hidx.
  destruct (Z.leb_spec 0 i) as [_|Hbad]; [|lia].
  rewrite Hb. reflexivity.
Qed.

Lemma intensity_range (bm : bitmap) (xy : Z * Z) :
  0 <= intensity bm xy <= max_intensity.
Proof.
  unfold intensity, max_intensity.
  pose proof (Byte.to_N_bounded (red (bm (fst xy) (snd xy)))). lia.
Qed.

Lemma contribution_range (bm : bitmap) (width height : Z) (p : point) :
  0 <= contribution bm width height p <= max_intensity.
Proof.
  unfold contribution.
  destruct (point_px width height p) as [xy|]; [|unfold max_intensity; lia].
  destruct (in_bounds width height xy).
  - apply intensity_range.
  - unfold max_intensity. lia.
Qed.

Lemma running_total_range (bm : bitmap) (width height : Z) (pts : list point) :
  0 <= running_total bm width height pts
    <= max_intensity * Z.of_nat (List.length pts).
Proof.
  unfold running_total. induction pts as [|p pts IH].
  - simpl. lia.
  - cbn [map fold_right List.length].
    pose proof (contribution_range bm width height p). lia.
Qed.

(** ** Shape normalisation *)

Lemma convert_trailset (p : point) (t : trail) (rest : trailset) :
  _convert_to_list_of_trails (js_trailset ((p :: t) :: rest))
  = Normal (js_trailset ((p :: t) :: rest)).
Proof. reflexivity. Qed.

Lemma convert_single_trail (p : point) (t : trail) :
  _convert_to_list_of_trails (js_trail (p :: t))
  = Normal (js_trailset [p :: t]).
Proof. reflexivity. Qed.

Lemma convert_no_trail : _convert_to_list_of_trails (JArr []) = Throw TypeError.
Proof. reflexivity. Qed.

Lemma convert_empty_first_trail (rest : list jsval) :
  _convert_to_list_of_trails (JArr (JArr [] :: rest)) = Throw TypeError.
Proof. reflexivity. Qed.

Lemma well_formed_first (ts : trailset) :
  well_formed ts -> (0 < total_points ts)%nat ->
  exists p t rest, ts = (p :: t) :: rest.
Proof.
  intros (Hne & _ & _) Hn. destruct ts as [|t rest].
  - simpl in Hn. inversion Hn.
  - inversion Hne as [|? ? Ht _]; subst.
    destruct t as [|p t]; [contradiction|].
    exists p, t, rest. reflexivity.
Qed.

Lemma flat_trails (ts : trailset) :
  flat_elems (map js_trail ts) = map js_point (concat ts).
Proof.
  unfold flat_elems. induction ts as [|t ts IH]; simpl; [reflexivity|].
  rewrite map_app. f_equal. exact IH.
Qed.

(** ** Coordinate mapping *)

Lemma xy_norm_to_px_points (pts : list point) (width_px height_px : Z) :
  _xy_norm_to_px (JArr (map js_point pts)) width_px height_px
  = Normal (map (map_px width_px height_px) pts).
Proof.
  unfold _xy_norm_to_px.
  induction pts as [|[x y] pts IH]; [reflexivity|].
  cbn [map cmap]. rewrite IH. reflexivity.
Qed.

Lemma map_px_norm (width height : Z) (p : point) :
  1 <= width < 2 ^ 53 -> 1 <= height < 2 ^ 53 ->
  int_of (fst (map_px width height p)) = norm_to_px width (fst p)
  /\ int_of (snd (map_px width height p)) = norm_to_px height (snd p).
Proof.
  intros Hw Hh. unfold map_px, norm_to_px. cbn [fst snd].
  rewrite !sub_one by assumption. split; reflexivity.
Qed.

Lemma map_px_whole (width height : Z) (p : point) :
  1 <= width < 2 ^ 53 -> 1 <= height < 2 ^ 53 ->
  finite_point p = true ->
  whole (fst (map_px width height p)) = true
  /\ whole (snd (map_px width height p)) = true.
Proof.
  intros Hw Hh Hp. unfold finite_point in Hp.
  apply andb_true_iff in Hp. destruct Hp as [Hx Hy].
  unfold map_px. cbn [fst snd]. rewrite !sub_one by assumption.
  split; apply Math_round_mul_whole; (assumption || lia).
Qed.

(** ** The sampling loop *)

Lemma in_bounds_iff (width height : Z) (xy : Z * Z) :
  in_bounds width height xy = true
  <-> 0 <= fst xy < width /\ 0 <= snd xy < height.
Proof.
  unfold in_bounds. destruct xy as [x y]. cbn [fst snd].
  destruct (Z.leb_spec 0 x), (Z.leb_spec x (width - 1)), (Z.leb_spec 0 y),
    (Z.leb_spec y (height - 1)); simpl; split; intros; try discriminate;
    try reflexivity; lia.
Qed.

Lemma whole_cases (a : jsnum) :
  whole a = true ->
  (exists s, a = Inf s) \/ (exists z, int_of a = Some z).
Proof.
  destruct a as [|s|s|q]; cbn [whole]; try discriminate.
  - intros _. left. exists s. reflexivity.
  - intros _. right. exists 0. reflexivity.
  - destruct (int_of (Val q)) as [z|]; [|discriminate].
    intros _. right. exists z. reflexivity.
Qed.

(** The test that skips a point is the complement of being in bounds; an
    infinite coordinate is out of bounds. *)
Lemma out_of_bounds_test (width height : Z) (a b : jsnum) :
  0 < width < 2 ^ 53 -> 0 < height < 2 ^ 53 ->
  whole a = true -> whole b = true ->
  lt a (of_Z 0) || ge a (of_Z width) || lt b (of_Z 0) || ge b (of_Z height)
  = negb match int_of a, int_of b with
         | Some x, Some y => in_bounds width height (x, y)
         | _, _ => false
         end.
Proof.
  intros Hw Hh Ha Hb.
  rewrite !of_Z_int by lia.
  pose proof (int_of_int_num 0) as H0.
  pose proof (int_of_int_num width) as HW.
  pose proof (int_of_int_num height) as HH.
  assert (Fw : exists q, int_num width = Val q).
  { unfold int_num. destruct (Z.eqb_spec width 0); [lia|eauto]. }
  assert (Fh : exists q, int_num height = Val q).
  { unfold int_num. destruct (Z.eqb_spec height 0); [lia|eauto]. }
  destruct Fw as [qw Ew]. destruct Fh as [qh Eh].
  destruct (whole_cases a Ha) as [[s ->]|[x Hx]].
  - rewrite Ew. change (int_num 0) with (Zero false).
    destruct s; cbn [lt ge negb orb int_of]; reflexivity.
  - rewrite Hx, (lt_int a _ x 0 Hx H0), (ge_int a _ x width Hx HW).
    destruct (whole_cases b Hb) as [[s ->]|[y Hy]].
    + rewrite Eh. change (int_num 0) with (Zero false).
      destruct s; cbn [lt ge negb int_of];
        rewrite ?orb_true_r; cbn [orb]; rewrite ?orb_true_r; reflexivity.
    + rewrite Hy, (lt_int b _ y 0 Hy H0), (ge_int b _ y height Hy HH).
      unfold in_bounds. cbn [fst snd].
      destruct (Z.ltb_spec x 0), (Z.leb_spec width x), (Z.ltb_spec y 0),
        (Z.leb_spec height y), (Z.leb_spec 0 x), (Z.leb_spec x (width - 1)),
        (Z.leb_spec 0 y), (Z.leb_spec y (height - 1)); simpl;
        try reflexivity; lia.
Qed.

Lemma sum_under_points_total (m : TrailComparisonMask) (bm : bitmap) :
  holds_raster m bm ->
  forall (pts : list point) (acc : Z),
    Forall (fun p => finite_point p = true) pts ->
    0 <= acc ->
    acc + max_intensity * Z.of_nat (List.length pts) < 2 ^ 53 ->
    sum_under_points m (map (map_px (Zpos (w m)) (Zpos (h m))) pts)
                     (int_num acc)
    = Normal (int_num (acc + running_total bm (Zpos (w m)) (Zpos (h m)) pts)).
Proof.
  intros (Himg & _ & Hsize).
  set (W := Zpos (w m)) in *. set (H := Zpos (h m)) in *.
  assert (HW : 1 <= W < 2 ^ 53) by (unfold W in *; nia).
  assert (HH : 1 <= H < 2 ^ 53) by (unfold H in *; nia).
  intros pts. induction pts as [|p pts IH]; intros acc Hfin Hacc Hbound.
  - cbn. rewrite Z.add_0_r. reflexivity.
  - inversion Hfin as [|? ? Hp Hfin']; subst.
    cbn [List.length] in Hbound. unfold max_intensity in *.
    destruct (map_px_whole W H p HW HH Hp) as [Ha Hb].
    destruct (map_px_norm W H p HW HH) as [Na Nb].
    cbn [map sum_under_points]. fold W H.
    destruct (map_px W H p) as [a b] eqn:Ep. cbn [fst snd] in *.
    rewrite (out_of_bounds_test W H a b) by (assumption || lia).
    unfold running_total. cbn [map fold_right]. fold (running_total bm W H pts).
    unfold contribution at 1, point_px. rewrite <- Na, <- Nb.
    pose proof (contribution_range bm W H p) as Hc.
    destruct (int_of a) as [x|] eqn:Hx;
      [destruct (int_of b) as [y|] eqn:Hy|].
    + destruct (in_bounds W H (x, y)) eqn:Hin; cbn [negb].
      * apply in_bounds_iff in Hin. cbn [fst snd] in Hin.
        destruct Hin as [Hx' Hy'].
        rewrite Himg. cbn [require_image cbind].
        assert (IW : int_of (of_Z W) = Some W)
          by (rewrite of_Z_int by lia; apply int_of_int_num).
        assert (I4 : int_of (of_Z 4) = Some 4) by reflexivity.
        assert (H1 : int_of (mul b (of_Z W)) = Some (y * W)).
        { apply (mul_int b (of_Z W) y W Hy IW); [lia|lia|nia]. }
        assert (H2 : int_of (add (mul b (of_Z W)) a) = Some (y * W + x)).
        { apply (add_int _ a (y * W) x H1 Hx); [nia|lia|nia]. }
        assert (Hidx : int_of (mul (add (mul b (of_Z W)) a) (of_Z 4))
                       = Some ((y * W + x) * 4)).
        { apply (mul_int _ (of_Z 4) (y * W + x) 4 H2 I4); [nia|lia|nia]. }
        rewrite (typed_array_get_int _ _ _ (red (bm x y)) Hidx)
          by (try nia; apply getImageData_red; assumption).
        cbn [to_number].
        pose proof (intensity_range bm (x, y)) as Hi.
        unfold intensity, max_intensity in Hi. cbn [fst snd] in Hi.
        rewrite of_Z_int by lia. rewrite add_int_num by lia.
        rewrite IH by (assumption || lia).
        unfold intensity. cbn [fst snd]. f_equal; f_equal; lia.
      * rewrite IH by (assumption || lia). f_equal; f_equal; lia.
    + cbn [negb]. rewrite IH by (assumption || lia). f_equal; f_equal; lia.
    + cbn [negb]. rewrite IH by (assumption || lia). f_equal; f_equal; lia.
Qed.

(** [compare] on a trail set whose first trail has a point. *)
Lemma compare_trailset (m : TrailComparisonMask) (bm : bitmap)
  (p : point) (t : trail) (rest : trailset) :
  holds_raster m bm ->
  Forall (fun p => finite_point p = true) (concat ((p :: t) :: rest)) ->
  Z.of_nat (total_points ((p :: t) :: rest)) <= max_array_length ->
  compare m (js_trailset ((p :: t) :: rest))
  = Normal (spec_score bm (Zpos (w m)) (Zpos (h m))
                       (concat ((p :: t) :: rest))).
Proof.
  intros Hr Hfin Hlen. pose proof Hr as (Himg & Hmax & Hsize).
  unfold compare.
  rewrite convert_trailset. cbn [cbind js_trailset array_flat].
  rewrite flat_trails, xy_norm_to_px_points. cbn [cbind].
  change (of_Z 0) with (int_num 0).
  unfold total_points, max_array_length in Hlen.
  assert (H32 : 2 ^ 32 * 255 < 2 ^ 53) by reflexivity.
  rewrite (sum_under_points_total m bm Hr)
    by (try assumption; unfold max_intensity; lia).
  cbn [cbind]. rewrite length_map, Hmax, Z.add_0_l.
  pose proof (running_total_range bm (Zpos (w m)) (Zpos (h m))
                (concat ((p :: t) :: rest))) as Hrt.
  unfold max_intensity in Hrt.
  rewrite <- of_Z_int by lia. reflexivity.
Qed.

(** ** The score *)

Lemma score_in_unit_range (total n : Z) :
  0 < n <= max_array_length -> 0 <= total <= max_intensity * n ->
  in_range 1 (div (div (of_Z total) (of_Z max_intensity)) (of_Z n)).
Proof.
  unfold max_array_length, max_intensity. intros Hn Ht.
  assert (H32 : 2 ^ 32 * 255 < 2 ^ 53) by reflexivity.
  assert (H53 : 2 ^ 32 < 2 ^ 53) by reflexivity.
  apply (div_in_range _ n n 1); try lia.
  apply (div_in_range _ (255 * n) 255 n); try lia.
  apply in_range_of_Z; lia.
Qed.

Lemma zero_score (n : Z) :
  0 < n <= max_array_length ->
  div (div (of_Z 0) (of_Z max_intensity)) (of_Z n) = of_Z 0.
Proof.
  unfold max_array_length. intros Hn.
  assert (H53 : 2 ^ 32 < 2 ^ 53) by reflexivity.
  change (div (of_Z 0) (of_Z max_intensity)) with (Zero false).
  rewrite (of_Z_int n) by lia. unfold int_num.
  destruct (Z.eqb_spec n 0) as [E|_]; [lia|].
  cbn [div xorb]. rewrite Zc_is_neg.
  destruct (Z.ltb_spec n 0); [lia|reflexivity].
Qed.

Lemma running_total_out_of_bounds (bm : bitmap) (width height : Z)
  (pts : list point) :
  (forall p, In p pts -> sampled width height p = false) ->
  running_total bm width height pts = 0.
Proof.
  unfold running_total. induction pts as [|p pts IH]; intros Hout.
  - reflexivity.
  - cbn [map fold_right].
    assert (Hp : contribution bm width height p = 0).
    { pose proof (Hout p (or_introl eq_refl)) as Hs.
      unfold sampled in Hs. unfold contribution.
      destruct (point_px width height p); [rewrite Hs|]; reflexivity. }
    rewrite Hp, IH; [reflexivity|].
    intros p' Hp'. apply Hout. right. exact Hp'.
Qed.

Lemma running_total_permutation (bm : bitmap) (width height : Z)
  (pts pts' : list point) :
  Permutation pts pts' ->
  running_total bm width height pts = running_total bm width height pts'.
Proof.
  unfold running_total.
  induction 1 as [|p l l' _ IH|p p' l|l l' l'' _ IH1 _ IH2];
    cbn [map fold_right].
  - reflexivity.
  - rewrite IH. reflexivity.
  - lia.
  - rewrite IH1. exact IH2.
Qed.

Lemma spec_score_permutation (bm : bitmap) (width height : Z)
  (pts pts' : list point) :
  Permutation pts pts' ->
  spec_score bm width height pts = spec_score bm width height pts'.
Proof.
  intros Hp. unfold spec_score.
  rewrite (running_total_permutation bm width height pts pts' Hp).
  rewrite (Permutation_length Hp). reflexivity.
Qed.

Lemma example_holds_raster : holds_raster Example.mask Example.raster.
Proof.
  split; [vm_compute; reflexivity|]. split; [reflexivity|].
  vm_compute. discriminate.
Qed.

Lemma example_well_formed :
  well_formed [Example.segment_a; Example.segment_b].
Proof.
  split; [repeat constructor; discriminate|].
  split; [repeat constructor|]. vm_compute. discriminate.
Qed.

(** C1: for a mask that holds a raster and a well-formed query trail set
    with at least one point, [compare] returns exactly the sum of the raster
    intensities under the in-bounds mapped points, divided by 255 and by
    the number of query points; a point mapped outside
    [0, width-1] x [0, height-1] adds 0 and is still counted. *)
Theorem compare_is_normalised_mean (m : TrailComparisonMask) (bm : bitmap)
  (ts : trailset) :
  holds_raster m bm -> well_formed ts -> (0 < total_points ts)%nat ->
  compare m (js_trailset ts)
  = Normal (spec_score bm (Zpos (w m)) (Zpos (h m)) (concat ts)).
Proof.
  intros Hr Hwf Hn.
  destruct (well_formed_first ts Hwf Hn) as (p & t & rest & ->).
  destruct Hwf as (_ & Hfin & Hlen).
  apply compare_trailset; assumption.
Qed.

Lemma compare_is_normalised_mean_witness :
  holds_raster Example.mask Example.raster
  /\ well_formed [Example.segment_a; Example.segment_b]
  /\ (0 < total_points [Example.segment_a; Example.segment_b])%nat
  /\ compare Example.mask
       (js_trailset [Example.segment_a; Example.segment_b])
     = Normal (spec_score Example.raster
                 (Zpos (w Example.mask)) (Zpos (h Example.mask))
                 (concat [Example.segment_a; Example.segment_b])).
Proof.
  assert (Hn : (0 < total_points [Example.segment_a; Example.segment_b])%nat)
    by (vm_compute; lia).
  split; [exact example_holds_raster|].
  split; [exact example_well_formed|]. split; [exact Hn|].
  exact (compare_is_normalised_mean Example.mask Example.raster
           [Example.segment_a; Example.segment_b]
           example_holds_raster example_well_formed Hn).
Defined.

(** C4: under the same conditions the score lies between 0 and 1, and a
    query whose mapped points all fall outside the raster scores exactly
    0. *)
Theorem compare_score_bounds (m : TrailComparisonMask) (bm : bitmap)
  (ts : trailset) :
  holds_raster m bm -> well_formed ts -> (0 < total_points ts)%nat ->
  (exists score : jsnum,
      compare m (js_trailset ts) = Normal score
      /\ le (of_Z 0) score = true /\ le score (of_Z 1) = true)
  /\ ((forall p, In p (concat ts) ->
         sampled (Zpos (w m)) (Zpos (h m)) p = false) ->
      compare m (js_trailset ts) = Normal (of_Z 0)).
Proof.
  intros Hr Hwf Hn.
  destruct (well_formed_first ts Hwf Hn) as (p & t & rest & E).
  destruct Hwf as (_ & Hfin & Hlen).
  rewrite E in Hfin, Hlen |- *.
  rewrite (compare_trailset m bm p t rest Hr Hfin Hlen). rewrite <- E in *.
  unfold total_points in *.
  split.
  - eexists. split; [reflexivity|].
    apply in_range_unit. unfold spec_score, of_nat.
    apply score_in_unit_range; [lia|apply running_total_range].
  - intros Hout. unfold spec_score, of_nat.
    rewrite (running_total_out_of_bounds _ _ _ _ Hout).
    rewrite zero_score by lia. reflexivity.
Qed.

Lemma compare_score_bounds_witness :
  holds_raster Example.mask Example.raster
  /\ well_formed [Example.segment_a; Example.segment_b]
  /\ (0 < total_points [Example.segment_a; Example.segment_b])%nat
  /\ exists score : jsnum,
       compare Example.mask
         (js_trailset [Example.segment_a; Example.segment_b])
       = Normal score
       /\ le (of_Z 0) score = true /\ le score (of_Z 1) = true.
Proof.
  assert (Hn : (0 < total_points [Example.segment_a; Example.segment_b])%nat)
    by (vm_compute; lia).
  split; [exact example_holds_raster|].
  split; [exact example_well_formed|]. split; [exact Hn|].
  exact (proj1 (compare_score_bounds Example.mask Example.raster
                  [Example.segment_a; Example.segment_b]
                  example_holds_raster example_well_formed Hn)).
Defined.

(** C6: for a fixed raster, two well-formed non-empty query trail sets
    whose flattened points are permutations of one another get the same
    score: trail boundaries and point order do not matter. *)
Theorem compare_permutation_invariant (m : TrailComparisonMask) (bm : bitmap)
  (ts ts' : trailset) :
  holds_raster m bm ->
  well_formed ts -> well_formed ts' -> (0 < total_points ts)%nat ->
  Permutation (concat ts) (concat ts') ->
  compare m (js_trailset ts) = compare m (js_trailset ts').
Proof.
  intros Hr Hwf Hwf' Hn Hp.
  assert (Hn' : (0 < total_points ts')%nat).
  { unfold total_points in *. rewrite <- (Permutation_length Hp). exact Hn. }
  destruct (well_formed_first ts Hwf Hn) as (p & t & rest & E).
  destruct (well_formed_first ts' Hwf' Hn') as (p' & t' & rest' & E').
  destruct Hwf as (_ & Hfin & Hlen). destruct Hwf' as (_ & Hfin' & Hlen').
  rewrite E in Hfin, Hlen |- *. rewrite E' in Hfin', Hlen' |- *.
  rewrite (compare_trailset m bm p t rest Hr Hfin Hlen).
  rewrite (compare_trailset m bm p' t' rest' Hr Hfin' Hlen').
  rewrite <- E, <- E'.
  rewrite (spec_score_permutation _ _ _ _ _ Hp). reflexivity.
Qed.

Lemma compare_permutation_invariant_witness :
  holds_raster Example.mask Example.raster
  /\ Permutation (concat [Example.segment_a; Example.segment_b])
                 (concat [Example.segment_b; Example.segment_a])
  /\ compare Example.mask
       (js_trailset [Example.segment_a; Example.segment_b])
     = compare Example.mask
         (js_trailset [Example.segment_b; Example.segment_a]).
Proof.
  assert (Hp : Permutation (concat [Example.segment_a; Example.segment_b])
                           (concat [Example.segment_b; Example.segment_a])).
  { cbn [concat]. rewrite !app_nil_r. apply Permutation_app_comm. }
  assert (Hwf' : well_formed [Example.segment_b; Example.segment_a]).
  { split; [repeat constructor; discriminate|].
    split; [repeat constructor|]. vm_compute. discriminate. }
  assert (Hn : (0 < total_points [Example.segment_a; Example.segment_b])%nat)
    by (vm_compute; lia).
  split; [exact example_holds_raster|]. split; [exact Hp|].
  exact (compare_permutation_invariant Example.mask Example.raster
           [Example.segment_a; Example.segment_b]
           [Example.segment_b; Example.segment_a]
           example_holds_raster example_well_formed Hwf' Hn Hp).
Defined.
(** ** The coordinate transform *)

Lemma xy_norm_to_px_px_of (pts : list point) (width_px height_px : Z) :
  1 <= width_px < 2 ^ 53 -> 1 <= height_px < 2 ^ 53 ->
  _xy_norm_to_px (js_trail pts) width_px height_px
  = Normal (map (fun p => (px_of width_px (fst p), px_of height_px (snd p)))
                pts).
Proof.
  intros Hw Hh. unfold js_trail. rewrite xy_norm_to_px_points.
  f_equal. apply map_ext. intros p. unfold map_px, px_of.
  rewrite !sub_one by assumption. reflexivity.
Qed.

Lemma px_of_nearest (dim : Z) (c : jsnum) (q : Qc) :
  mul c (of_Z (dim - 1)) = Val q ->
  norm_to_px dim c = Some (round_Z q).
Proof.
  intros E. unfold norm_to_px, px_of. rewrite E. cbn [Math_round].
  destruct (Z.eqb_spec (round_Z q) 0) as [->|_]; [reflexivity|].
  apply int_of_Val_Zc.
Qed.

Lemma norm_to_px_zero (dim : Z) :
  1 <= dim < 2 ^ 53 -> norm_to_px dim (of_Z 0) = Some 0.
Proof.
  intros Hd. unfold norm_to_px, px_of. rewrite (of_Z_int (dim - 1)) by lia.
  unfold int_num. change (of_Z 0) with (Zero false).
  destruct (dim - 1 =? 0); reflexivity.
Qed.

Lemma norm_to_px_one (dim : Z) :
  1 <= dim < 2 ^ 53 -> norm_to_px dim (of_Z 1) = Some (dim - 1).
Proof.
  intros Hd. unfold norm_to_px, px_of.
  assert (E1 : int_of (of_Z 1) = Some 1) by reflexivity.
  assert (Ed : int_of (of_Z (dim - 1)) = Some (dim - 1)).
  { rewrite of_Z_int by lia. apply int_of_int_num. }
  pose proof (mul_int (of_Z 1) (of_Z (dim - 1)) 1 (dim - 1) E1 Ed) as Hm.
  rewrite Z.mul_1_l in Hm. specialize (Hm ltac:(lia) ltac:(lia) ltac:(lia)).
  destruct (int_of_cases _ _ Hm) as [(s & -> & E0)| ->].
  - rewrite E0. reflexivity.
  - cbn [Math_round]. rewrite round_Z_of_Z.
    destruct (Z.eqb_spec (dim - 1) 0) as [->|_]; [reflexivity|].
    apply int_of_Val_Zc.
Qed.

Lemma norm_to_px_range (dim : Z) (c : jsnum) :
  1 <= dim < 2 ^ 53 ->
  le (of_Z 0) c = true -> le c (of_Z 1) = true ->
  exists z, norm_to_px dim c = Some z /\ 0 <= z <= dim - 1.
Proof.
  intros Hd H0 H1. unfold norm_to_px, px_of.
  rewrite (of_Z_int (dim - 1)) by lia. unfold int_num.
  destruct c as [|s|s|q].
  - discriminate H0.
  - destruct s; [discriminate H0|discriminate H1].
  - exists 0. split; [|lia].
    destruct (dim - 1 =? 0); reflexivity.
  - change (of_Z 0) with (Zero false) in H0.
    change (of_Z 1) with (round64 (Zc 1)) in H1.
    rewrite (round64_int 1) in H1 by (split; [lia|reflexivity]).
    cbn [le ge fin_value] in H0, H1.
    assert (Hq0 : (Zc 0 <= q)%Qc).
    { unfold Qcle. rewrite Qle_alt. unfold Qccompare in H0.
      rewrite <- Qcompare_antisym in H0.
      intro E. rewrite E in H0. discriminate H0. }
    assert (Hq1 : (q <= Zc 1)%Qc).
    { unfold Qcle. rewrite Qle_alt. unfold Qccompare in H1.
      rewrite <- Qcompare_antisym in H1.
      intro E. rewrite E in H1. discriminate H1. }
    destruct (Z.eqb_spec (dim - 1) 0) as [_|Hnz].
    + exists 0. split; [reflexivity|lia].
    + cbn [mul]. destruct (Qc_is_zero (q * Zc (dim - 1))) eqn:Ez.
      * exists 0. split; [reflexivity|lia].
      * assert (Hk : (Zc 0 <= Zc (dim - 1))%Qc) by (apply Zc_le; lia).
        assert (Hle : (q * Zc (dim - 1) <= Zc (dim - 1))%Qc).
        { replace (Zc (dim - 1)) with (Zc 1 * Zc (dim - 1))%Qc at 2
            by (rewrite Zc_mul; f_equal; lia).
          apply Qcmult_le_compat_r; assumption. }
        assert (Hge : (Zc 0 <= q * Zc (dim - 1))%Qc).
        { replace (Zc 0) with (Zc 0 * Zc (dim - 1))%Qc
            by (rewrite Zc_mul; reflexivity).
          apply Qcmult_le_compat_r; assumption. }
        assert (Hpos : (Zc 0 < q * Zc (dim - 1))%Qc).
        { apply Qcle_lt_or_eq in Hge. destruct Hge as [Hlt|Heq]; [exact Hlt|].
          rewrite <- Heq in Ez. discriminate Ez. }
        apply Math_round_in_range; [|lia].
        apply round64_le_int; [exact Hpos|exact Hle|lia].
Qed.

(** C5: [_xy_norm_to_px] sends each point (x, y) to
    (round(x * (width - 1)), round(y * (height - 1))), the product being
    the binary64 product and round the nearest integer to it, a tie going
    up; 0 goes to pixel 0 and 1 to pixel dim - 1, and a coordinate in
    [0, 1] lands on a pixel of [0, dim - 1]. *)
Theorem xy_norm_to_px_linear (pts : trail) (width_px height_px : Z) :
  1 <= width_px < 2 ^ 53 -> 1 <= height_px < 2 ^ 53 ->
  _xy_norm_to_px (js_trail pts) width_px height_px
  = Normal (map (fun p => (px_of width_px (fst p), px_of height_px (snd p)))
                pts)
  /\ (forall (dim : Z) (c : jsnum) (q : Qc),
         mul c (of_Z (dim - 1)) = Val q ->
         exists z : Z,
           norm_to_px dim c = Some z
           /\ (Zc z - Q2Qc (1 # 2) <= q)%Qc /\ (q < Zc z + Q2Qc (1 # 2))%Qc)
  /\ (forall dim : Z,
         1 <= dim < 2 ^ 53 ->
         norm_to_px dim (of_Z 0) = Some 0
         /\ norm_to_px dim (of_Z 1) = Some (dim - 1))
  /\ (forall (dim : Z) (c : jsnum),
         1 <= dim < 2 ^ 53 ->
         le (of_Z 0) c = true -> le c (of_Z 1) = true ->
         exists z : Z, norm_to_px dim c = Some z /\ 0 <= z <= dim - 1).
Proof.
  intros Hw Hh.
  split; [apply xy_norm_to_px_px_of; assumption|]. split.
  - intros dim c q E. exists (round_Z q).
    split; [apply px_of_nearest; exact E|apply round_Z_nearest].
  - split.
    + intros dim Hd.
      split; [apply norm_to_px_zero|apply norm_to_px_one]; exact Hd.
    + apply norm_to_px_range.
Qed.

Lemma xy_norm_to_px_linear_witness :
  1 <= 11 < 2 ^ 53 /\ 1 <= 1 < 2 ^ 53
  /\ _xy_norm_to_px (js_trail [(Example.num 7 20, Example.num 0 1)]) 11 1
     = Normal (map (fun p => (px_of 11 (fst p), px_of 1 (snd p)))
                   [(Example.num 7 20, Example.num 0 1)]).
Proof.
  assert (Hw : 1 <= 11 < 2 ^ 53) by lia.
  assert (Hh : 1 <= 1 < 2 ^ 53) by lia.
  split; [exact Hw|]. split; [exact Hh|].
  exact (proj1 (xy_norm_to_px_linear
                  [(Example.num 7 20, Example.num 0 1)] 11 1 Hw Hh)).
Defined.

(** The product is rounded to binary64 before [Math.round] sees it: the
    number nearest to 0.35 lies below 0.35, its product with 10 rounds to
    3.5 and the pixel is 4; -0.05 gives the negative zero; 1.025 on 21
    columns gives column 21, outside the raster. *)
Lemma px_of_rounded_product :
  norm_to_px 11 (Example.num 7 20) = Some 4
  /\ round_Z (fin_value (Example.num 7 20) * Zc 10) = 3
  /\ px_of 11 (Example.num (-1) 20) = Zero true
  /\ norm_to_px 21 (Example.num 41 40) = Some 21.
Proof. vm_compute. repeat split; reflexivity. Qed.

(** ** Points that lack a coordinate *)










(** ** Inputs without points and malformed points *)

(** C2: a query whose trails hold no point at all (the empty list, or
    trails that are all empty) makes [compare] throw; it returns no score. *)
Theorem compare_zero_points_throws (m : TrailComparisonMask) (ts : trailset) :
  total_points ts = 0%nat ->
  compare m (js_trailset ts) = Throw TypeError
  /\ forall score, compare m (js_trailset ts) <> Normal score.
Proof.
  intros Hn.
  assert (E : compare m (js_trailset ts) = Throw TypeError).
  { destruct ts as [|[|p t] rest].
    - reflexivity.
    - reflexivity.
    - discriminate Hn. }
  split; [exact E|]. intros score. rewrite E. discriminate.
Qed.

Lemma compare_zero_points_throws_witness :
  total_points [[]; []] = 0%nat
  /\ compare Example.mask (js_trailset [[]; []]) = Throw TypeError.
Proof.
  split; [reflexivity|].
  exact (proj1 (compare_zero_points_throws Example.mask [[]; []] eq_refl)).
Defined.

Section Construction.

Variable canvas_stroke : canvas_t -> bitmap.
Variable canvas_drawImage_self : canvas_t -> bitmap.

Abbreviation constructor := (constructor canvas_stroke canvas_drawImage_self).
Abbreviation update_mask_parameters :=
  (update_mask_parameters canvas_stroke canvas_drawImage_self).

(** C3, at the inputs where the code departs from it: building a mask
    from the trail set without trails, or from the one whose only trail
    is empty, throws, and so does updating a mask with either. *)
Theorem empty_trailset_mask_throws (mask_width mask_height : positive)
  (thickness blur_size : jsval) (out : list string) (s : world) :
  fst (constructor (js_trailset []) mask_width mask_height
                   thickness blur_size out) = Throw TypeError
  /\ fst (constructor (js_trailset [[]]) mask_width mask_height
                      thickness blur_size out) = Throw TypeError
  /\ fst (update_mask_parameters (js_trailset []) thickness blur_size s)
     = Throw TypeError
  /\ fst (update_mask_parameters (js_trailset [[]]) thickness blur_size s)
     = Throw TypeError.
Proof. repeat split; reflexivity. Qed.

(** The blank mask exists: without trails (null) and with the default
    thickness and blur, the constructor stores an all-zero raster. *)
Lemma constructor_without_trails (mask_width mask_height : positive)
  (out : list string) :
  exists m,
    constructor JNull mask_width mask_height JUndef JUndef out
    = (Normal m, out)
    /\ img m = Some (getImageData (fun _ _ => opaque_black)
                                  (Zpos mask_width) (Zpos mask_height))
    /\ _mask_value m = max_intensity
    /\ forall xy, intensity (fun _ _ => opaque_black) xy = 0.
Proof.
  eexists. split; [reflexivity|]. split; [reflexivity|].
  split; [reflexivity|]. intros xy. reflexivity.
Qed.

(** C7: a non-empty trail and the trail set that holds just that trail
    are the same input: [compare] gives the same result, and the
    constructor builds the same object, raster included. *)
Theorem single_trail_is_singleton_set (m : TrailComparisonMask) (t : trail)
  (mask_width mask_height : positive) (thickness blur_size : jsval)
  (out : list string) :
  t <> [] ->
  compare m (js_trail t) = compare m (js_trailset [t])
  /\ constructor (js_trail t) mask_width mask_height thickness blur_size out
     = constructor (js_trailset [t]) mask_width mask_height
                   thickness blur_size out.
Proof.
  intros Ht. destruct t as [|p t]; [contradiction|].
  split; reflexivity.
Qed.

(** C9: an update with three nulls ends normally, leaves the object as it
    was (trails, thickness, blur size, image and canvas) and writes one
    warning to the console. *)
Theorem update_without_parameters (s : world) :
  let r := update_mask_parameters JNull JNull JNull s in
  fst r = Normal tt
  /\ self (snd r) = self s
  /\ (trails_xy_norm (self (snd r)) = trails_xy_norm (self s)
      /\ thickness (self (snd r)) = thickness (self s)
      /\ blur_size (self (snd r)) = blur_size (self s)
      /\ img (self (snd r)) = img (self s)
      /\ canvas (self (snd r)) = canvas (self s))
  /\ console (snd r)
     = console s
       ++ ["No parameters given when updating mask! Ignoring update"%string].
Proof. repeat split; reflexivity. Qed.

(** C10: the shape helper looks at element [0][0] only, so inputs that
    agree there are treated alike; and when the first trail is empty (the
    input is the empty list or starts with an empty trail) the
    constructor, an update with trails and [compare] all throw. *)
Theorem empty_first_trail_throws :
  (forall x y : jsval,
      element_0_0 x = element_0_0 y ->
      (_convert_to_list_of_trails x = Throw TypeError
       /\ _convert_to_list_of_trails y = Throw TypeError)
      \/ (_convert_to_list_of_trails x = Normal (JArr [x])
          /\ _convert_to_list_of_trails y = Normal (JArr [y]))
      \/ (_convert_to_list_of_trails x = Normal x
          /\ _convert_to_list_of_trails y = Normal y))
  /\ (forall (x : jsval) (m : TrailComparisonMask) (s : world)
             (mask_width mask_height : positive)
             (thickness blur_size : jsval) (out : list string),
         first_trail_empty x = true ->
         fst (constructor x mask_width mask_height thickness blur_size out)
         = Throw TypeError
         /\ fst (update_mask_parameters x thickness blur_size s)
            = Throw TypeError
         /\ compare m x = Throw TypeError).
Proof.
  split.
  - intros x y E.
    assert (Hx : _convert_to_list_of_trails x
                 = (e <- element_0_0 x ;;
                    len <- get_length e ;;
                    Normal (if is_undefined len then JArr [x] else x)))
      by (unfold _convert_to_list_of_trails, element_0_0;
          destruct (get_index x 0); reflexivity).
    assert (Hy : _convert_to_list_of_trails y
                 = (e <- element_0_0 y ;;
                    len <- get_length e ;;
                    Normal (if is_undefined len then JArr [y] else y)))
      by (unfold _convert_to_list_of_trails, element_0_0;
          destruct (get_index y 0); reflexivity).
    rewrite Hx, Hy, <- E.
    destruct (element_0_0 x) as [e|[]]; cbn [cbind].
    + destruct e as [| |n|l]; cbn; auto.
    + auto.
  - intros x m s mask_width mask_height thickness blur_size out Hx.
    destruct x as [| | |[|[| | |[|e l]] rest]]; try discriminate Hx;
      repeat split; reflexivity.
Qed.

End Construction.

Lemma single_trail_is_singleton_set_witness :
  Example.diagonal <> []
  /\ compare Example.mask (js_trail Example.diagonal)
     = compare Example.mask (js_trailset [Example.diagonal]).
Proof.
  assert (Ht : Example.diagonal <> []) by discriminate.
  split; [exact Ht|].
  exact (proj1 (single_trail_is_singleton_set
                  Example.stroke_vertices Example.drawImage_same
                  Example.mask Example.diagonal 4%positive 4%positive
                  JUndef JUndef [] Ht)).
Defined.

Lemma empty_first_trail_throws_witness :
  (first_trail_empty (JArr [JArr []; js_trail Example.diagonal]) = true
   /\ compare Example.mask (JArr [JArr []; js_trail Example.diagonal])
      = Throw TypeError)
  /\ (element_0_0 (js_trail Example.diagonal)
      = element_0_0 (js_trail Example.segment_a)
      /\ ((_convert_to_list_of_trails (js_trail Example.diagonal)
           = Throw TypeError
           /\ _convert_to_list_of_trails (js_trail Example.segment_a)
              = Throw TypeError)
          \/ (_convert_to_list_of_trails (js_trail Example.diagonal)
              = Normal (JArr [js_trail Example.diagonal])
              /\ _convert_to_list_of_trails (js_trail Example.segment_a)
                 = Normal (JArr [js_trail Example.segment_a]))
          \/ (_convert_to_list_of_trails (js_trail Example.diagonal)
              = Normal (js_trail Example.diagonal)
              /\ _convert_to_list_of_trails (js_trail Example.segment_a)
                 = Normal (js_trail Example.segment_a)))).
Proof.
  pose proof (empty_first_trail_throws
                Example.stroke_vertices Example.drawImage_same) as [Hsame Hthrow].
  split.
  - split; [reflexivity|].
    exact (proj2 (proj2
      (Hthrow (JArr [JArr []; js_trail Example.diagonal]) Example.mask
              (mk_world Example.mask []) 4%positive 4%positive
              JUndef JUndef [] eq_refl))).
  - split; [reflexivity|].
    exact (Hsame (js_trail Example.diagonal) (js_trail Example.segment_a)
                 eq_refl).
Defined.

(** ** The raster after construction and update *)

Lemma same_config_refl (m : TrailComparisonMask) : same_config m m.
Proof. repeat split. Qed.

Lemma same_config_trans (m1 m2 m3 : TrailComparisonMask) :
  same_config m1 m2 -> same_config m2 m3 -> same_config m1 m3.
Proof.
  unfold same_config. intros (A1 & A2 & A3) (B1 & B2 & B3).
  repeat split; congruence.
Qed.

Lemma keeps_config_ret {A : Type} (a : A) : keeps_config (ret a).
Proof. intros s. apply same_config_refl. Qed.

Lemma keeps_config_lift {A : Type} (c : completion A) : keeps_config (lift c).
Proof. intros s. apply same_config_refl. Qed.

Lemma keeps_config_get_self : keeps_config get_self.
Proof. intros s. apply same_config_refl. Qed.

Lemma keeps_config_console_warn (msg : string) :
  keeps_config (console_warn msg).
Proof. intros s. apply same_config_refl. Qed.

Lemma keeps_config_bind {A B : Type} (c : Js A) (k : A -> Js B) :
  keeps_config c -> (forall a, keeps_config (k a)) -> keeps_config (bind c k).
Proof.
  intros Hc Hk s. unfold bind. specialize (Hc s).
  destruct (c s) as [[a|e] s1]; cbn [snd] in *.
  - apply same_config_trans with (self s1); [exact Hc|apply Hk].
  - exact Hc.
Qed.

Lemma keeps_config_modify_self (f : TrailComparisonMask -> TrailComparisonMask) :
  (forall m, same_config m (f m)) -> keeps_config (modify_self f).
Proof. intros Hf s. apply Hf. Qed.

Lemma keeps_config_modify_canvas (f : canvas_t -> canvas_t) :
  keeps_config (modify_canvas f).
Proof. apply keeps_config_modify_self. intros m. repeat split. Qed.

Lemma keeps_config_modify_ctx (f : ctx2d -> ctx2d) :
  keeps_config (modify_ctx f).
Proof. apply keeps_config_modify_canvas. Qed.

Lemma keeps_config_for_each {A : Type} (body : A -> Js unit) (l : list A) :
  (forall a, keeps_config (body a)) -> keeps_config (for_each body l).
Proof.
  intros Hb. induction l as [|a l IH]; cbn [for_each].
  - apply keeps_config_ret.
  - apply keeps_config_bind; [apply Hb|intros _; exact IH].
Qed.

Lemma keeps_config_if {A : Type} (b : bool) (c1 c2 : Js A) :
  keeps_config c1 -> keeps_config c2 -> keeps_config (if b then c1 else c2).
Proof. destruct b; trivial. Qed.

Create HintDb frame.
#[local] Hint Resolve keeps_config_ret keeps_config_lift keeps_config_get_self
  keeps_config_console_warn keeps_config_modify_canvas keeps_config_modify_ctx
  keeps_config_for_each keeps_config_if : frame.

Ltac frame :=
  repeat first
    [ apply keeps_config_bind; [|intros ?]
    | apply keeps_config_for_each; intros ?
    | apply keeps_config_if
    | solve [auto with frame]
    | apply keeps_config_modify_self; intros ?; repeat split ].

Lemma ends_stored_bind {A B : Type} (c : Js A) (k : A -> Js B) :
  (forall a, ends_stored (k a)) -> ends_stored (bind c k).
Proof.
  intros Hk s b s' E. unfold bind in E.
  destruct (c s) as [[a|e] s1]; [|discriminate E].
  exact (Hk a s1 b s' E).
Qed.

Lemma ends_stored_if {A : Type} (b : bool) (c1 c2 : Js A) :
  ends_stored c1 -> ends_stored c2 -> ends_stored (if b then c1 else c2).
Proof. destruct b; trivial. Qed.

Lemma ends_stored_store_image : ends_stored store_image.
Proof.
  intros s a s' E. unfold store_image, bind, get_self, modify_self in E.
  injection E as _ <-. reflexivity.
Qed.

Section Invariant.

Variable canvas_stroke : canvas_t -> bitmap.
Variable canvas_drawImage_self : canvas_t -> bitmap.

Lemma keeps_config_draw_trails (trails : jsval) (clear : bool) :
  keeps_config (draw_trails canvas_stroke trails clear).
Proof. unfold draw_trails, stroke. frame. Qed.

Lemma keeps_config_generate_mask :
  keeps_config (_generate_mask canvas_stroke canvas_drawImage_self).
Proof.
  unfold _generate_mask, store_image, drawImage_self.
  pose proof keeps_config_draw_trails. frame.
Qed.

Lemma keeps_config_update (trails thickness blur_size : jsval) :
  keeps_config (update_mask_parameters canvas_stroke canvas_drawImage_self
                  trails thickness blur_size).
Proof.
  unfold update_mask_parameters.
  pose proof keeps_config_generate_mask. frame.
Qed.

Lemma ends_stored_generate_mask :
  ends_stored (_generate_mask canvas_stroke canvas_drawImage_self).
Proof.
  unfold _generate_mask.
  repeat first
    [ apply ends_stored_store_image
    | apply ends_stored_if
    | apply ends_stored_bind; intros ? ].
Qed.

(** An update that is given some parameter and ends normally returns with
    the image regenerated from the canvas. *)
Lemma update_regenerates (trails thickness blur_size : jsval) (s s' : world) :
  forallb is_null [default_arg JNull trails; default_arg JNull thickness;
                   default_arg JNull blur_size] = false ->
  update_mask_parameters canvas_stroke canvas_drawImage_self
    trails thickness blur_size s = (Normal tt, s') ->
  image_stored (self s') /\ same_config (self s) (self s').
Proof.
  intros Hin E. split.
  - assert (H : ends_stored
                   (update_mask_parameters canvas_stroke canvas_drawImage_self
                      trails thickness blur_size)).
    { unfold update_mask_parameters. rewrite Hin.
      repeat first
        [ apply ends_stored_generate_mask
        | apply ends_stored_bind; intros ? ]. }
    exact (H s tt s' E).
  - pose proof (keeps_config_update trails thickness blur_size s) as H.
    rewrite E in H. exact H.
Qed.

(** A mask the constructor returns, unless it was given null for the
    trails, the thickness and the blur size together, holds the raster
    that is on its canvas, when its pixel data is short enough for exact
    indices. *)
Lemma constructor_holds_raster (trails : jsval)
  (mask_width mask_height : positive) (thickness blur_size : jsval)
  (out out' : list string) (m : TrailComparisonMask) :
  forallb is_null [default_arg JNull trails; thickness; blur_size] = false ->
  4 * Zpos mask_width * Zpos mask_height <= 2 ^ 53 ->
  constructor canvas_stroke canvas_drawImage_self trails
    mask_width mask_height thickness blur_size out = (Normal m, out') ->
  holds_raster m (pixels (canvas m))
  /\ w m = mask_width /\ h m = mask_height.
Proof.
  intros Hin Hsize E. unfold constructor in E.
  set (th := default_arg (JNum (of_Z 64)) thickness) in *.
  set (bl := default_arg (JNum (of_Z 32)) blur_size) in *.
  destruct (update_mask_parameters canvas_stroke canvas_drawImage_self
              trails th bl (mk_world (fresh_mask mask_width mask_height) out))
    as [[[]|e] s'] eqn:Eu; cbn [cbind] in E; [|discriminate E].
  injection E as <- <-.
  assert (Hin' : forallb is_null [default_arg JNull trails;
                                  default_arg JNull th;
                                  default_arg JNull bl] = false).
  { subst th bl. revert Hin.
    destruct (default_arg JNull trails), thickness, blur_size;
      cbn; intros; congruence. }
  destruct (update_regenerates trails th bl _ _ Hin' Eu)
    as (Hs & Hw & Hh & Hv).
  cbn [self fresh_mask w h _mask_value] in Hw, Hh, Hv.
  split; [|split; assumption].
  split; [exact Hs|]. split; [exact Hv|]. rewrite Hw, Hh. exact Hsize.
Qed.

End Invariant.

(** ** The path the rasteriser strokes *)

Lemma with_path_same (s : world) : with_path (path_of s) s = s.
Proof. destruct s as [[[cw ch px []] ? ? ? ? ? ? ?] ?]. reflexivity. Qed.

Lemma lineTo_loop (ps : list (jsnum * jsnum)) :
  forall s,
    for_each (fun p => modify_ctx (add_path (LineTo (fst p) (snd p)))) ps s
    = (Normal tt,
       with_path (path_of s ++ map (fun p => LineTo (fst p) (snd p)) ps) s).
Proof.
  induction ps as [|p ps IH]; intros s.
  - cbn [for_each map ret]. rewrite app_nil_r, with_path_same. reflexivity.
  - cbn [for_each map]. unfold bind at 1.
    change (modify_ctx (add_path (LineTo (fst p) (snd p))) s)
      with (Normal tt, with_path (path_of s ++ [LineTo (fst p) (snd p)]) s).
    cbv beta iota. rewrite IH.
    change (path_of (with_path (path_of s ++ [LineTo (fst p) (snd p)]) s))
      with (path_of s ++ [LineTo (fst p) (snd p)]).
    rewrite <- app_assoc. reflexivity.
Qed.

Lemma trail_loop (width_px height_px : Z) (ts : trailset) :
  Forall (fun t => t <> []) ts ->
  forall s,
    for_each
      (fun trail_xy_norm =>
         trail_xy_px <~ lift (_xy_norm_to_px trail_xy_norm width_px height_px) ;;
         start <~ lift (spread_first trail_xy_px) ;;
         modify_ctx (add_path (MoveTo (fst start) (snd start))) ;;;
         for_each
           (fun p => modify_ctx (add_path (LineTo (fst p) (snd p))))
           (tl trail_xy_px))
      (map js_trail ts) s
    = (Normal tt,
       with_path (path_of s ++ flat_map (trail_path width_px height_px) ts) s).
Proof.
  intros Hwf. induction Hwf as [|t ts Ht _ IH]; intros s.
  - cbn [for_each map flat_map ret]. rewrite app_nil_r, with_path_same.
    reflexivity.
  - destruct t as [|p t]; [contradiction|].
    cbn [for_each map]. unfold bind at 1. unfold bind at 1, lift at 1.
    change (JArr (js_point p :: map js_point t)) with (js_trail (p :: t)).
    unfold js_trail at 1. rewrite xy_norm_to_px_points.
    cbn [map spread_first]. cbv beta iota.
    unfold bind at 1, lift at 1. cbv beta iota.
    unfold bind at 1.
    change (modify_ctx (add_path ?c) s)
      with (Normal tt, with_path (path_of s ++ [c]) s).
    cbv beta iota. cbn [tl]. rewrite lineTo_loop. rewrite IH.
    unfold trail_path. cbn [flat_map map].
    f_equal. unfold with_path, path_of; cbn.
    rewrite <- !app_assoc. reflexivity.
Qed.

Section Rasteriser.

Variable canvas_stroke : canvas_t -> bitmap.

(** On a trail set of non-empty trails [draw_trails] strokes the path made
    of one sub-path a trail, whose vertices are the points of the trail
    through the transform that [compare] uses. *)
Lemma draw_trails_path (p : point) (t : trail) (rest : trailset) (s : world) :
  well_formed ((p :: t) :: rest) ->
  let width_px := cv_width (canvas (self s)) in
  let height_px := cv_height (canvas (self s)) in
  let s1 :=
    with_path (flat_map (trail_path width_px height_px) ((p :: t) :: rest)) s in
  draw_trails canvas_stroke (js_trailset ((p :: t) :: rest)) false s
  = (Normal tt,
     mk_world
       (set_canvas
          (set_pixels (canvas_stroke (canvas (self s1))) (canvas (self s1)))
          (self s1))
       (console s1)).
Proof.
  intros Hwf. cbv zeta. unfold draw_trails.
  unfold bind at 1. unfold get_self at 1. cbv beta iota.
  unfold bind at 1. unfold ret at 1. cbv beta iota.
  unfold bind at 1. rewrite convert_trailset. unfold lift at 1. cbv beta iota.
  unfold bind at 1.
  change (modify_ctx (set_path []) s) with (Normal tt, with_path [] s).
  cbv beta iota.
  unfold bind at 1. unfold lift at 1. cbn [js_trailset iterate]. cbv beta iota.
  unfold bind at 1.
  change (js_trail (p :: t) :: map js_trail rest)
    with (map js_trail ((p :: t) :: rest)).
  rewrite (trail_loop _ _ _ (proj1 Hwf)). reflexivity.
Qed.

End Rasteriser.
